(** * libdw: the flag registry, the test detectors and the bootstrap resampler

    A shallow embedding of [src/libdw/src/lib.c] (with the structure of
    [src/libdw/src/libdw.h]) and the properties of it that the
    specification states, followed by further properties of the code:
    its edges, the order of its calls and their composition.

    Conventions of the embedding.
    - A C [int] is a [Z] between [INT_MIN] and [INT_MAX], 32 bits wide
      as on the platforms of the library.  An [int] operation whose
      result is outside this range is undefined in C: here it is a fault.
      The [int] arithmetic of the library is its loop counters and the
      row-major offsets [row * cols + ii].  A counter that [i++] steps
      while [i < bound] stays below the [int] [bound] (lemma
      [incr_below_bound]), so its increment is not checked; [ii += 2] and
      the offsets are.
    - An array is the list of its cells, indexed from 0.  A store through
      an index outside the array is undefined in C: here it is a fault.
      A load outside the array yields an indeterminate value.
    - Memory obtained from [malloc] is not initialised: its cells are
      indeterminate ([Indet] for a pointer cell, [None] for an [int]
      cell).  Copying an indeterminate value is possible; branching on it
      or storing through it is a fault, and so is a store through a null
      or dangling pointer.  A function that can fault returns an [option],
      [None] for the fault.
    - The flag matrices are buffers of the caller.  They live in a heap of
      named blocks, and the registry slots hold pointers to them, so that
      two slots can hold the same matrix.
    - The arrays that a [dw_struct] owns (the slot array and the two
      tables) are kept in the structure by value, a null pointer as the
      array of no cell.  [dw_alloc_flag_out] and [dw_set_flag_prod] free
      the old arrays first, which C defines for a null pointer and for a
      block that [malloc] returned and that is still live, and which
      changes no value that the functions compute.  A [dw_struct] stands
      for a structure whose arrays are such: the zeroed structure
      [dw_null] and every structure that the functions make of it
      ([built]) are.  [malloc] is taken to succeed.
    - The clock readings and the [printf] of [dw_even_odd] are left out. *)

From Stdlib Require Import ZArith QArith Lia.
From stdpp Require Import base option list gmap.

Local Open Scope Z_scope.

(** * The program *)

(** ** C objects *)

Definition block := positive.

Inductive pointer : Type :=
  | Indet              (* never assigned *)
  | Null
  | Ptr (b : block).

#[global] Instance pointer_eq_dec : EqDecision pointer.
Proof. solve_decision. Defined.

(** [int]: the result of an operation whose value in Z is [z]. *)
Definition INT_MAX : Z := 2147483647.
Definition INT_MIN : Z := -2147483648.

Definition int_result (z : Z) : option Z :=
  if decide (INT_MIN ≤ z ≤ INT_MAX) then Some z else None.

Definition int_add (a b : Z) : option Z := int_result (a + b).
Definition int_mul (a b : Z) : option Z := int_result (a * b).

(** [double] values: the only ones the library computes are converted
    [int]s, which a [double] represents exactly. *)
Definition double := Q.
Definition double_of_int (z : Z) : double := inject_Z z.

(** The char buffers of the caller, by block. *)
Abbreviation heap := (gmap block (list Z)).

Section arrays.
Context {A : Type}.

(** [a[i]] as an rvalue. *)
Definition load (a : list A) (i : Z) : option A :=
  if decide (0 ≤ i) then a !! Z.to_nat i else None.

(** The array [a] with [v] in its cell [i]. *)
Definition store (a : list A) (i : Z) (v : A) : list A :=
  if decide (0 ≤ i) then <[Z.to_nat i := v]> a else a.

(** [a[i] = v]: the array afterwards, or the fault of a store outside
    the array. *)
Definition assign (a : list A) (i : Z) (v : A) : option (list A) :=
  if decide (0 ≤ i < Z.of_nat (length a)) then Some (store a i v) else None.

(** [malloc(n * sizeof(A))]: [n] cells holding [junk]. *)
Definition malloc (n : Z) (junk : A) : list A := replicate (Z.to_nat n) junk.

End arrays.

Definition read_int (a : list (option Z)) (i : Z) : option Z := mjoin (load a i).
Definition read_ptr (a : list pointer) (i : Z) : pointer := default Indet (load a i).

(** ** Loops

    [for (i = start; i < bound; step) body], where [step] takes the
    counter to a greater one.  The first argument of [for_steps] bounds
    the iterations that are left: [bound - i <= n] holds at every call, so
    that [n = 0] is met only when the loop condition is false. *)

Fixpoint for_steps {S : Type} (n : nat) (i bound : Z) (step : Z → option Z)
    (body : Z → S → option S) (s : S) : option S :=
  match n with
  | O => Some s
  | S n' =>
      if decide (i < bound)
      then s' ← body i s; i' ← step i; for_steps n' i' bound step body s'
      else Some s
  end.

Definition for_loop {S : Type} (start bound : Z) (step : Z → option Z)
    (body : Z → S → option S) (s : S) : option S :=
  for_steps (Z.to_nat (bound - start)) start bound step body s.

(** [i++], where [i < bound]. *)
Definition incr (i : Z) : option Z := Some (i + 1).

(** [ii += 2] *)
Definition incr2 (ii : Z) : option Z := int_add ii 2.

(** ** libdw.h *)

Record dw_struct : Type := Dw {
  data : pointer;
  rows : Z;
  cols : Z;
  flag_data : list pointer;
  l_flag : Z;
  flag_data_ind : list (option Z);
  flag_product : list (option Z);
  l_flag_prod : Z
}.

(** ** lib.c: common init functions *)

Definition init_dw (data_struct : dw_struct) (data' : pointer) (rows' cols' : Z)
    : Z * dw_struct :=
  (0, Dw data' rows' cols'
         (flag_data data_struct) (l_flag data_struct)
         (flag_data_ind data_struct) (flag_product data_struct)
         (l_flag_prod data_struct)).

(** [free(data_struct->flag_data)] comes first: the old slot array is
    null or a live block (see the conventions). *)
Definition dw_alloc_flag_out (data_struct : dw_struct) (l_flag' : Z)
    : Z * dw_struct :=
  (0, Dw (data data_struct) (rows data_struct) (cols data_struct)
         (malloc l_flag' Indet) l_flag'
         (flag_data_ind data_struct) (flag_product data_struct)
         (l_flag_prod data_struct)).

(** The index is compared with [l_flag] alone: a negative one goes on to
    the store. *)
Definition dw_set_flag_out (data_struct : dw_struct) (flag_data' : pointer)
    (i_flag : Z) : option (Z * dw_struct) :=
  if decide (i_flag >= l_flag data_struct) then Some (-1, data_struct)
  else
    slots ← assign (flag_data data_struct) i_flag flag_data';
    Some (0, Dw (data data_struct) (rows data_struct) (cols data_struct)
                slots (l_flag data_struct)
                (flag_data_ind data_struct) (flag_product data_struct)
                (l_flag_prod data_struct)).

(** The two copy loops of [dw_set_flag_prod]: [dst[ii] = src[ii]]. *)
Definition copy_ints (src : list (option Z)) (n : Z) (dst : list (option Z))
    : option (list (option Z)) :=
  for_loop 0 n incr (λ ii dst, assign dst ii (read_int src ii)) dst.

(** Each table is freed before its new array is allocated: the old
    tables are null or live blocks (see the conventions). *)
Definition dw_set_flag_prod (data_struct : dw_struct)
    (flag_product' : list (option Z)) (l_flag_prod' : Z)
    (flag_data_ind' : list (option Z)) : option (Z * dw_struct) :=
  fp ← copy_ints flag_product' l_flag_prod' (malloc l_flag_prod' None);
  fdi ← copy_ints flag_data_ind' (l_flag data_struct)
          (malloc (l_flag data_struct) None);
  Some (0, Dw (data data_struct) (rows data_struct) (cols data_struct)
              (flag_data data_struct) (l_flag data_struct)
              fdi fp l_flag_prod').

(** ** lib.c: RFI algorithms *)

(** [row * cols + ii] *)
Definition cell_offset (row cols ii : Z) : option Z :=
  m ← int_mul row cols; int_add m ii.

(** [data_struct->flag_data[slot][off] = 1] *)
Definition write_flag (data_struct : dw_struct) (slot off : Z) (h : heap)
    : option heap :=
  match read_ptr (flag_data data_struct) slot with
  | Ptr b => buf ← h !! b; buf' ← assign buf off 1; Some (<[b := buf']> h)
  | _ => None
  end.

Definition dw_single_channel (data_struct : dw_struct) (channel : Z) (h : heap)
    : option (Z * heap) :=
  h' ← for_loop 0 (rows data_struct) incr
         (λ row h,
            off ← cell_offset row (cols data_struct) channel;
            write_flag data_struct 0 off h) h;
  Some (0, h').

(** One parity pass of [dw_even_odd]: the columns [first], [first + 2], ...
    of the matrix of product [k].  The loop over [ii] runs in one thread
    here; under OpenMP its iterations are distributed, and they store the
    same value to pairwise different cells.  This is the loop for
    [cols < INT_MAX].  At [cols = INT_MAX] the counter of the loop as it
    is written leaves the [int]s, which is the fault here, and the number
    of iterations that OpenMP computes on entry is not specified: the
    statements about the pass are for [cols < INT_MAX]. *)
Definition parity_pass (data_struct : dw_struct) (k first : Z) (h : heap)
    : option heap :=
  for_loop first (cols data_struct) incr2
    (λ ii h,
       for_loop 0 (rows data_struct) incr
         (λ row h,
            slot ← read_int (flag_product data_struct) k;
            off ← cell_offset row (cols data_struct) ii;
            write_flag data_struct slot off h) h) h.

Definition dw_even_odd (data_struct : dw_struct) (channel_start : double)
    (h : heap) : option (Z * heap) :=
  p0 ← read_int (flag_product data_struct) 0;
  h1 ← (if decide (p0 > -1) then parity_pass data_struct 0 0 h else Some h);
  p1 ← read_int (flag_product data_struct) 1;
  h2 ← (if decide (p1 > -1) then parity_pass data_struct 1 1 h1 else Some h1);
  Some (0, h2).

Definition dw_full_dwt (data_struct : dw_struct) (th_k : double) : Z := 0.

(** ** lib.c: util functions *)

(** [a % b] on [int]: truncated remainder, a trap for [b = 0]. *)
Definition c_rem (a b : Z) : option Z :=
  if decide (b = 0) then None else Some (Z.rem a b).

Section bootstrap.
(** [rand()] of the C library: a generator state and its step. *)
Variable rng : Type.
Variable rand : rng → Z * rng.

Definition bootstrap_resample (x_in : list double) (len_in : Z)
    (x_out : list double) (len_out : Z) (g : rng)
    : option (Z * (list double * rng)) :=
  st ← for_loop 0 len_out incr
         (λ ii '(x_out, g),
            let '(r, g') := rand g in
            v ← c_rem r len_in;
            x_out' ← assign x_out ii (double_of_int v);
            Some (x_out', g'))
         (x_out, g);
  Some (0, st).

(** The generator after [k] calls. *)
Definition rand_after (k : nat) (g : rng) : rng := Nat.iter k (λ g, (rand g).2) g.

End bootstrap.

(** * Vocabulary of the statements *)

(** ** Loops as folds over their index lists *)

Fixpoint iterM {I S : Type} (body : I → S → option S) (l : list I) (s : S)
    : option S :=
  match l with
  | [] => Some s
  | i :: l => s' ← body i s; iterM body l s'
  end.

(** The counters that a loop takes, when no step of it faults. *)
Fixpoint loop_counters (n : nat) (i bound : Z) (step : Z → option Z)
    : option (list Z) :=
  match n with
  | O => Some []
  | S n' =>
      if decide (i < bound)
      then i' ← step i; l ← loop_counters n' i' bound step; Some (i :: l)
      else Some []
  end.

Definition counters (start bound : Z) (step : Z → option Z) : option (list Z) :=
  loop_counters (Z.to_nat (bound - start)) start bound step.

(** [start], [start + 2], ... below [bound]. *)
Fixpoint loop_indices (n : nat) (i bound step : Z) : list Z :=
  match n with
  | O => []
  | S n' => if decide (i < bound) then i :: loop_indices n' (i + step) bound step else []
  end.

Definition indices (start bound step : Z) : list Z :=
  loop_indices (Z.to_nat (bound - start)) start bound step.

(** ** Flag matrices *)

(** The stores [buf[off] = 1] for the offsets of a list, in order. *)
Definition flag_cells (buf : list Z) (offs : list Z) : list Z :=
  foldl (λ buf off, store buf off 1) buf offs.

(** The offsets of a list are those of cells of the buffer. *)
Definition stores_inside (buf : list Z) (offs : list Z) : Prop :=
  ∀ off, off ∈ offs → 0 ≤ off < Z.of_nat (length buf).

(** The cells [(row, channel)] of the rows, by offset. *)
Definition channel_offsets (ds : dw_struct) (channel : Z) : list Z :=
  (λ row, row * cols ds + channel) <$> seqZ 0 (rows ds).

(** The pairs [(ii, row)] of a loop nest over columns, then rows. *)
Definition column_cells (ds : dw_struct) (columns : list Z) : list (Z * Z) :=
  ii ← columns; (λ row, (ii, row)) <$> seqZ 0 (rows ds).

(** The cells of the columns [first], [first + 2], ..., by offset. *)
Definition parity_offsets (ds : dw_struct) (first : Z) : list Z :=
  (λ p, p.2 * cols ds + p.1) <$> column_cells ds (indices first (cols ds) 2).

(** The offsets that [dw_single_channel] stores to, as it computes them. *)
Definition channel_stores (ds : dw_struct) (channel : Z) : option (list Z) :=
  mapM (λ row, cell_offset row (cols ds) channel) (seqZ 0 (rows ds)).

(** The offsets that a parity pass stores to, as it computes them. *)
Definition parity_stores (ds : dw_struct) (first : Z) : option (list Z) :=
  columns ← counters first (cols ds) incr2;
  mapM (λ p, cell_offset p.2 (cols ds) p.1) (column_cells ds columns).

(** The offsets stored for a product whose table entry is [p]. *)
Definition product_stores (ds : dw_struct) (p first : Z) : option (list Z) :=
  if decide (p > -1) then parity_stores ds first else Some [].

(** Every buffer keeps its length, and each of its cells keeps its value
    or holds 1. *)
Definition flags_added (h h' : heap) : Prop :=
  ∀ b,
    match h !! b with
    | Some buf =>
        ∃ buf', h' !! b = Some buf' ∧ length buf' = length buf ∧
                ∀ n : nat, buf' !! n = buf !! n ∨ buf' !! n = Some 1
    | None => h' !! b = None
    end.

(** The number of cells of a buffer that hold 1. *)
Definition count_flagged (buf : list Z) : Z :=
  Z.of_nat (length (filter (λ v, v = 1) buf)).

Definition zero_matrix (rows cols : Z) : list Z :=
  replicate (Z.to_nat (rows * cols)) 0.

(** The flags of one row: 1 in the columns [first], [first + 2], ... *)
Definition parity_flag (first col : Z) : Z :=
  if decide (first ≤ col ∧ (col - first) mod 2 = 0) then 1 else 0.

Definition parity_row (cols first : Z) : list Z :=
  parity_flag first <$> seqZ 0 cols.

Definition parity_matrix (rows cols first : Z) : list Z :=
  (λ off, parity_flag first (off mod cols)) <$> seqZ 0 (rows * cols).

(** [ds] with another product table. *)
Definition with_flag_product (ds : dw_struct) (flag_product' : list (option Z))
    (l_flag_prod' : Z) : dw_struct :=
  Dw (data ds) (rows ds) (cols ds) (flag_data ds) (l_flag ds)
     (flag_data_ind ds) flag_product' l_flag_prod'.

(** ** A small registry

    Two slots, the matrices of a 2 x 3 spectrogram in blocks 1 and 2. *)

Definition demo_struct : dw_struct :=
  Dw Null 2 3 [Ptr 1%positive; Ptr 2%positive] 2
     [Some 10; Some 11] [Some 0; Some 1] 2.

Definition demo_heap : heap :=
  <[1%positive := zero_matrix 2 3]> (<[2%positive := zero_matrix 2 3]> ∅).

(** The same registry with product 0 switched off. *)
Definition demo_even_only : dw_struct :=
  with_flag_product demo_struct [Some (-1); Some 1] 2.

(** A registry whose two slots hold the same matrix. *)
Definition demo_shared : dw_struct :=
  Dw Null 2 3 [Ptr 1%positive; Ptr 1%positive] 2
     [Some 10; Some 11] [Some 0; Some 1] 2.

(** A registry for a spectrogram of 3 rows and [2 ^ 30] columns, whose
    matrices have more than [INT_MAX] cells. *)
Definition wide_struct : dw_struct :=
  Dw Null 3 1073741824 [Ptr 1%positive; Ptr 2%positive] 2
     [Some 10; Some 11] [Some 0; Some 1] 2.

Definition wide_heap : heap :=
  <[1%positive := zero_matrix 3 1073741824]>
    (<[2%positive := zero_matrix 3 1073741824]> ∅).

(** A linear congruential generator, to run the resampler. *)
Definition lcg_rand (g : Z) : Z * Z :=
  let g' := (1103515245 * g + 12345) mod 2147483648 in (g', g').

(** ** Registries as the setup functions leave them *)

(** The slot array has the cells that [l_flag] counts. *)
Definition slots_allocated (ds : dw_struct) : Prop :=
  length (flag_data ds) = Z.to_nat (l_flag ds).

(** The registry after a call of [dw_set_flag_out], whatever its status. *)
Definition after_set_flag_out (ds : dw_struct) (flag_data' : pointer)
    (i_flag : Z) : option dw_struct :=
  snd <$> dw_set_flag_out ds flag_data' i_flag.

(** A caller that sets the slots [i], [i + 1], ... to the pointers of a
    list, one call of [dw_set_flag_out] each, and keeps the statuses. *)
Fixpoint set_flags_from (ds : dw_struct) (i : Z) (ps : list pointer)
    : option (list Z * dw_struct) :=
  match ps with
  | [] => Some ([], ds)
  | p :: ps =>
      '(r, ds1) ← dw_set_flag_out ds p i;
      '(rs, ds2) ← set_flags_from ds1 (i + 1) ps;
      Some (r :: rs, ds2)
  end.

(** The zeroed structure: every pointer is null, every number is 0. *)
Definition dw_null : dw_struct := Dw Null 0 0 [] 0 [] [] 0.



(** The same spectrogram, with no slot set yet. *)
Definition demo_unset : dw_struct := (dw_alloc_flag_out demo_struct 2).2.

(** Two matrices that hold other values than 0 and 1. *)
Definition demo_used_heap : heap :=
  <[1%positive := [5; 5; 5; 5; 5; 5]]> (<[2%positive := [7; 7; 7; 7; 7; 7]]> ∅).

Tactic Notation "step_bind" := cbn [mbind option_bind].
Tactic Notation "step_bind" "in" hyp(H) := cbn [mbind option_bind] in H.

(** ** The program on the small registry *)

Example dw_even_odd_demo :
  dw_even_odd demo_struct 0%Q demo_heap
  = Some (0, <[1%positive := [1; 0; 1; 1; 0; 1]]>
               (<[2%positive := [0; 1; 0; 0; 1; 0]]> ∅)).
Proof. vm_compute. reflexivity. Qed.

(** Two slots that share a matrix: both passes store into it. *)
Example dw_even_odd_shared_matrix :
  dw_even_odd demo_shared 0%Q demo_heap
  = Some (0, <[1%positive := [1; 1; 1; 1; 1; 1]]> demo_heap).
Proof. vm_compute. reflexivity. Qed.

Example dw_single_channel_demo :
  dw_single_channel demo_struct 1 demo_heap
  = Some (0, <[1%positive := [0; 1; 0; 0; 1; 0]]> demo_heap).
Proof. vm_compute. reflexivity. Qed.

Example dw_single_channel_no_matrix :
  dw_single_channel (dw_alloc_flag_out demo_struct 2).2 1 demo_heap = None.
Proof. reflexivity. Qed.

Example dw_set_flag_out_demo :
  dw_set_flag_out demo_struct (Ptr 3%positive) 2 = Some (-1, demo_struct) ∧
  dw_set_flag_out demo_struct (Ptr 3%positive) 1
  = Some (0, Dw Null 2 3 [Ptr 1%positive; Ptr 3%positive] 2
                [Some 10; Some 11] [Some 0; Some 1] 2) ∧
  dw_set_flag_out demo_struct (Ptr 3%positive) (-1) = None.
Proof. split_and!; reflexivity. Qed.

Example dw_set_flag_prod_demo :
  dw_set_flag_prod demo_struct [Some 1; Some (-1); Some 7] 3 [Some 5]
  = Some (0, Dw Null 2 3 [Ptr 1%positive; Ptr 2%positive] 2
                [Some 5; None] [Some 1; Some (-1); Some 7] 3).
Proof. reflexivity. Qed.

Example bootstrap_resample_demo :
  bootstrap_resample Z lcg_rand [] 3 [0%Q; 0%Q; 7%Q] 2 42
  = Some (0, ([0%Q; 2%Q; 7%Q], 1116302264)).
Proof. vm_compute. reflexivity. Qed.

(** * Properties *)

(** ** Arrays *)

Section array_facts.
Context {A : Type}.
Implicit Types (a : list A) (i j : Z) (v : A).

Lemma length_store a i v : length (store a i v) = length a.
Proof. unfold store. case_decide; [apply length_insert | done]. Qed.

Lemma load_store_ne a i j v : i ≠ j → load (store a i v) j = load a j.
Proof.
  intros Hij. unfold load, store.
  destruct (decide (0 ≤ j)); [|done].
  destruct (decide (0 ≤ i)); [|done].
  apply list_lookup_insert_ne. lia.
Qed.

Lemma load_store_eq a i v :
  0 ≤ i < Z.of_nat (length a) → load (store a i v) i = Some v.
Proof.
  intros Hi. unfold load, store. rewrite !decide_True by lia.
  apply list_lookup_insert_eq. lia.
Qed.

Lemma lookup_store a i v (n : nat) :
  store a i v !! n
  = if decide (i = Z.of_nat n ∧ (n < length a)%nat) then Some v else a !! n.
Proof.
  unfold store. destruct (decide (0 ≤ i)) as [Hi|Hi].
  - rewrite list_lookup_insert.
    destruct (decide (i = Z.of_nat n ∧ (n < length a)%nat)) as [[-> ?]|Hn].
    + rewrite decide_True; [done|]. split; [lia | by rewrite Nat2Z.id].
    + rewrite decide_False; [done|]. intros [<- ?]. apply Hn. split; [lia | done].
  - rewrite decide_False; [done | lia].
Qed.

Lemma load_malloc n (junk : A) i : 0 ≤ i < n → load (malloc n junk) i = Some junk.
Proof.
  intros Hi. unfold load, malloc. rewrite decide_True by lia.
  apply lookup_replicate_2. lia.
Qed.

Lemma length_malloc n (junk : A) : length (malloc n junk) = Z.to_nat n.
Proof. apply length_replicate. Qed.

Lemma assign_Some a i v a' :
  assign a i v = Some a' ↔ 0 ≤ i < Z.of_nat (length a) ∧ a' = store a i v.
Proof.
  unfold assign. case_decide as Hi.
  - split; [by intros [= <-] | by intros [_ ->]].
  - split; [done | by intros [? _]].
Qed.

Lemma assign_inside a i v :
  0 ≤ i < Z.of_nat (length a) → assign a i v = Some (store a i v).
Proof. intros Hi. by apply assign_Some. Qed.

Lemma assign_outside a i v : ¬ (0 ≤ i < Z.of_nat (length a)) → assign a i v = None.
Proof. intros Hi. unfold assign. by rewrite decide_False. Qed.

End array_facts.

(** ** [int] arithmetic *)

Lemma int_result_Some z : INT_MIN ≤ z ≤ INT_MAX → int_result z = Some z.
Proof. intros Hz. unfold int_result. by rewrite decide_True. Qed.

Lemma int_result_None z : INT_MAX < z → int_result z = None.
Proof. intros Hz. unfold int_result. rewrite decide_False; [done | lia]. Qed.

(** The increment of a counter below an [int] bound is an [int]. *)
Lemma incr_below_bound i bound :
  INT_MIN ≤ i → i < bound → bound ≤ INT_MAX → int_add i 1 = incr i.
Proof. intros Hi Hlt Hbound. unfold int_add, incr. apply int_result_Some. lia. Qed.

Lemma cell_offset_Some rows cols row ii :
  0 ≤ row < rows → 0 ≤ ii < cols → rows * cols ≤ INT_MAX →
  cell_offset row cols ii = Some (row * cols + ii).
Proof.
  intros Hrow Hii Hmax. unfold cell_offset, int_mul, int_add.
  assert (0 ≤ row * cols ∧ row * cols + ii < rows * cols) as [??] by nia.
  rewrite int_result_Some by (unfold INT_MIN; lia). step_bind.
  apply int_result_Some. unfold INT_MIN. lia.
Qed.

(** ** Loops *)

Lemma iterM_app {I S} (body : I → S → option S) l1 l2 s :
  iterM body (l1 ++ l2) s = s' ← iterM body l1 s; iterM body l2 s'.
Proof.
  revert s. induction l1 as [|i l1 IH]; intros s; simpl; [done|].
  destruct (body i s) as [s'|]; simpl; [apply IH | done].
Qed.

Lemma iterM_ext {I S} (f g : I → S → option S) l s :
  (∀ i s, i ∈ l → f i s = g i s) → iterM f l s = iterM g l s.
Proof.
  revert s. induction l as [|i l IH]; intros s Hfg; simpl; [done|].
  rewrite Hfg by left.
  destruct (g i s) as [s'|]; simpl; [|done].
  apply IH. intros j s'' Hj. apply Hfg. by right.
Qed.

Lemma iterM_fmap {I J S} (g : I → J) (body : J → S → option S) l s :
  iterM body (g <$> l) s = iterM (λ i s, body (g i) s) l s.
Proof.
  revert s. induction l as [|i l IH]; intros s; simpl; [done|].
  destruct (body (g i) s); simpl; [apply IH | done].
Qed.

(** A loop nest is the loop over the pairs of indices. *)
Lemma iterM_nest {I J S} (body : I → J → S → option S) (li : list I) (lj : list J) s :
  iterM (λ i s, iterM (body i) lj s) li s
  = iterM (λ p s, body p.1 p.2 s) (i ← li; (λ j, (i, j)) <$> lj) s.
Proof.
  revert s. induction li as [|i li IH]; intros s; simpl; [done|].
  rewrite iterM_app, iterM_fmap. cbn [fst snd].
  destruct (iterM (body i) lj s); simpl; [apply IH | done].
Qed.

(** What an iteration computes from its index alone can be computed
    before the loop. *)
Lemma iterM_mapM {I J S} (f : I → option J) (body : J → S → option S) l s :
  iterM (λ i s, j ← f i; body j s) l s = js ← mapM f l; iterM body js s.
Proof.
  revert s. induction l as [|i l IH]; intros s; cbn [iterM mapM]; [done|].
  destruct (f i) as [j|]; step_bind; [|done].
  destruct (body j s) as [s'|] eqn:Hbody; step_bind.
  - rewrite IH. destruct (mapM f l) as [js|]; simpl; [by rewrite Hbody | done].
  - destruct (mapM f l) as [js|]; simpl; [by rewrite Hbody | done].
Qed.

Lemma mapM_fmap_Some {I J} (f : I → option J) (g : I → J) l :
  (∀ i, i ∈ l → f i = Some (g i)) → mapM f l = Some (g <$> l).
Proof.
  induction l as [|i l IH]; intros Hfg; cbn [mapM fmap list_fmap]; [done|].
  rewrite Hfg by left. step_bind.
  rewrite IH; [done|]. intros j Hj. apply Hfg. by right.
Qed.

Lemma mapM_fault {I J} (f : I → option J) l i :
  i ∈ l → f i = None → mapM f l = None.
Proof.
  intros Hi Hf. induction l as [|j l IH]; [by apply elem_of_nil in Hi|].
  cbn [mapM]. apply elem_of_cons in Hi as [<-|Hi].
  - by rewrite Hf.
  - rewrite IH by done. by destruct (f j).
Qed.

Lemma for_steps_counters {S} n i bound step (body : Z → S → option S) s :
  for_steps n i bound step body s
  = l ← loop_counters n i bound step; iterM body l s.
Proof.
  revert i s. induction n as [|n IH]; intros i s; cbn [for_steps loop_counters];
    [done|].
  case_decide; [|done].
  destruct (step i) as [i'|]; step_bind.
  - destruct (body i s) as [s'|] eqn:Hbody; step_bind.
    + rewrite IH. destruct (loop_counters n i' bound step); simpl;
        [by rewrite Hbody | done].
    + destruct (loop_counters n i' bound step); simpl; [by rewrite Hbody | done].
  - by destruct (body i s).
Qed.

Lemma for_loop_counters {S} start bound step (body : Z → S → option S) s :
  for_loop start bound step body s
  = l ← counters start bound step; iterM body l s.
Proof. apply for_steps_counters. Qed.

(** The index lists of the loops of the library. *)

Lemma loop_counters_incr n i bound :
  (Z.to_nat (bound - i) ≤ n)%nat →
  loop_counters n i bound incr = Some (seqZ i (bound - i)).
Proof.
  revert i. induction n as [|n IH]; intros i Hn; cbn [loop_counters].
  - rewrite seqZ_nil; [done | lia].
  - case_decide.
    + change (incr i) with (Some (i + 1)). step_bind. rewrite IH by lia. step_bind.
      rewrite (seqZ_cons i) by lia. do 3 f_equal; lia.
    + rewrite seqZ_nil; [done | lia].
Qed.

Lemma counters_incr bound : counters 0 bound incr = Some (seqZ 0 bound).
Proof.
  unfold counters. rewrite loop_counters_incr by lia. do 2 f_equal; lia.
Qed.

(** [ii += 2] does not overflow when the bound is below [INT_MAX]. *)
Lemma loop_counters_incr2 n i bound :
  INT_MIN ≤ i → bound < INT_MAX →
  loop_counters n i bound incr2 = Some (loop_indices n i bound 2).
Proof.
  intros Hi Hbound. revert i Hi.
  induction n as [|n IH]; intros i Hi; cbn [loop_counters loop_indices]; [done|].
  case_decide; [|done].
  change (incr2 i) with (int_result (i + 2)).
  rewrite int_result_Some by (unfold INT_MIN, INT_MAX in *; lia). step_bind.
  rewrite IH by lia. done.
Qed.

Lemma counters_incr2 start bound :
  INT_MIN ≤ start → bound < INT_MAX →
  counters start bound incr2 = Some (indices start bound 2).
Proof. intros. by apply loop_counters_incr2. Qed.

(** It does when the bound is [INT_MAX] and the counter is even. *)
Lemma loop_counters_incr2_overflow n i :
  0 ≤ i < INT_MAX → i mod 2 = 0 → (Z.to_nat (INT_MAX - i) ≤ n)%nat →
  loop_counters n i INT_MAX incr2 = None.
Proof.
  revert i. induction n as [|n IH]; intros i Hi Heven Hn; [lia|].
  cbn [loop_counters]. rewrite decide_True by lia.
  destruct (decide (i + 2 ≤ INT_MAX)) as [Hnext|Hnext].
  - change (incr2 i) with (int_result (i + 2)).
    rewrite int_result_Some by (unfold INT_MIN; lia). step_bind.
    rewrite IH; [done| |by rewrite <- Heven, <- (Z.mod_add i 1 2) by lia; f_equal; lia|lia].
    split; [lia|]. unfold INT_MAX in *.
    destruct (decide (i + 2 = 2147483647)) as [Heq|]; [|lia].
    exfalso. revert Heven. rewrite (Zmod_odd i).
    replace i with 2147483645 by lia. done.
  - change (incr2 i) with (int_result (i + 2)).
    rewrite int_result_None by lia. done.
Qed.

Lemma elem_of_loop_indices n i bound step x :
  0 < step → (Z.to_nat (bound - i) ≤ n)%nat →
  x ∈ loop_indices n i bound step ↔ i ≤ x < bound ∧ (x - i) mod step = 0.
Proof.
  intros Hstep. revert i. induction n as [|n IH]; intros i Hn; simpl.
  - rewrite elem_of_nil. split; [done|]. lia.
  - case_decide as Hlt.
    + rewrite elem_of_cons, IH by lia. split.
      * intros [->|[Hx Hm]].
        -- split; [lia|]. by rewrite Z.sub_diag.
        -- split; [lia|].
           replace (x - i) with (x - (i + step) + 1 * step) by lia.
           by rewrite Z.mod_add by lia.
      * intros [Hx Hm].
        destruct (decide (x = i)) as [->|Hne]; [by left | right].
        assert (step ≤ x - i).
        { apply Z.mod_divide in Hm; [|lia]. destruct Hm as [q Hq].
          assert (0 < q) by nia. nia. }
        split; [lia|].
        replace (x - (i + step)) with (x - i + (-1) * step) by lia.
        by rewrite Z.mod_add by lia.
    + rewrite elem_of_nil. split; [done|]. lia.
Qed.

Lemma elem_of_indices start bound step x :
  0 < step →
  x ∈ indices start bound step ↔ start ≤ x < bound ∧ (x - start) mod step = 0.
Proof. intros Hstep. by apply elem_of_loop_indices. Qed.

(** ** Flags stored into one buffer *)

Lemma length_flag_cells buf offs : length (flag_cells buf offs) = length buf.
Proof.
  unfold flag_cells. revert buf.
  induction offs as [|off offs IH]; intros buf; simpl; [done|].
  by rewrite IH, length_store.
Qed.

Lemma lookup_flag_cells buf offs (n : nat) :
  flag_cells buf offs !! n
  = if decide (Z.of_nat n ∈ offs ∧ (n < length buf)%nat) then Some 1 else buf !! n.
Proof.
  unfold flag_cells. revert buf.
  induction offs as [|off offs IH]; intros buf; cbn [foldl].
  - case_decide as Hn; [|done]. destruct Hn as [Hn _]. by apply elem_of_nil in Hn.
  - rewrite IH, length_store, lookup_store.
    destruct (decide (off = Z.of_nat n ∧ (n < length buf)%nat)) as [[-> Hlen]|Hne].
    + rewrite (decide_True (P := Z.of_nat n ∈ Z.of_nat n :: offs ∧ _));
        [by destruct (decide _) | split; [left | done]].
    + destruct (decide (Z.of_nat n ∈ offs ∧ (n < length buf)%nat)) as [[Hin Hlen]|Hnin].
      * rewrite decide_True; [done|]. split; [by right | done].
      * rewrite decide_False; [done|].
        intros [[Heq|Hin]%elem_of_cons Hlen]; [apply Hne | apply Hnin]; by split.
Qed.

Lemma load_flag_cells buf offs off :
  load (flag_cells buf offs) off
  = if decide (off ∈ offs ∧ 0 ≤ off < Z.of_nat (length buf))
    then Some 1 else load buf off.
Proof.
  unfold load. destruct (decide (0 ≤ off)) as [Hoff|Hoff].
  - rewrite lookup_flag_cells, Z2Nat.id by done.
    destruct (decide (off ∈ offs ∧ (Z.to_nat off < length buf)%nat)) as [[??]|Hn].
    + rewrite decide_True; [done|]. split; [done | lia].
    + rewrite decide_False; [done|]. intros [? ?]. apply Hn. split; [done | lia].
  - rewrite decide_False; [done | lia].
Qed.

Lemma flag_cells_absorb buf offs :
  (∀ n : nat, Z.of_nat n ∈ offs → (n < length buf)%nat → buf !! n = Some 1) →
  flag_cells buf offs = buf.
Proof.
  intros Hbuf. apply list_eq. intros n. rewrite lookup_flag_cells.
  case_decide as Hn; [|done]. destruct Hn. symmetry. by apply Hbuf.
Qed.

Lemma flag_cells_idemp buf offs :
  flag_cells (flag_cells buf offs) offs = flag_cells buf offs.
Proof.
  apply flag_cells_absorb. intros n Hn Hlen.
  rewrite length_flag_cells in Hlen.
  rewrite lookup_flag_cells. by rewrite decide_True.
Qed.

Lemma flag_cells_stable buf offs offs' :
  flag_cells buf offs = buf →
  flag_cells (flag_cells buf offs') offs = flag_cells buf offs'.
Proof.
  intros Hfix. apply flag_cells_absorb. intros n Hn Hlen.
  rewrite length_flag_cells in Hlen.
  assert (buf !! n = Some 1) as Hone.
  { rewrite <- Hfix, lookup_flag_cells. by rewrite decide_True. }
  rewrite lookup_flag_cells. by case_decide.
Qed.

(** ** Stores of flags through a registry slot *)

Section write_flag_facts.
Variable ds : dw_struct.
Implicit Types (h : heap) (slot off : Z) (b : block) (buf : list Z).

Lemma write_flag_Some slot off h h' :
  write_flag ds slot off h = Some h' ↔
  ∃ b buf, read_ptr (flag_data ds) slot = Ptr b ∧ h !! b = Some buf ∧
           0 ≤ off < Z.of_nat (length buf) ∧
           h' = <[b := store buf off 1]> h.
Proof.
  unfold write_flag. split.
  - destruct (read_ptr (flag_data ds) slot) as [| |b]; try done.
    destruct (h !! b) as [buf|] eqn:Hb; simpl; [|done].
    destruct (assign buf off 1) as [buf'|] eqn:Hstore; simpl; [|done].
    apply assign_Some in Hstore as [Hin ->].
    intros [= <-]. by exists b, buf.
  - intros (b & buf & -> & -> & Hin & ->). simpl. by rewrite assign_inside.
Qed.

Lemma stores_inside_length buf buf' offs :
  length buf' = length buf → stores_inside buf offs → stores_inside buf' offs.
Proof. intros Hlen Hin off Hoff. rewrite Hlen. by apply Hin. Qed.

(** A run of stores through one slot. *)
Lemma flag_run slot b buf offs h :
  read_ptr (flag_data ds) slot = Ptr b → h !! b = Some buf →
  stores_inside buf offs →
  iterM (write_flag ds slot) offs h = Some (<[b := flag_cells buf offs]> h).
Proof.
  intros Hslot. revert h buf.
  induction offs as [|off offs IH]; intros h buf Hb Hin; cbn [iterM].
  - by rewrite insert_id.
  - assert (write_flag ds slot off h = Some (<[b := store buf off 1]> h)) as ->.
    { apply write_flag_Some. exists b, buf.
      split_and!; [done | done | apply Hin; left.. | done]. }
    step_bind. erewrite IH; [|apply lookup_insert_eq|].
    + by rewrite insert_insert_eq.
    + apply (stores_inside_length buf); [apply length_store|].
      intros off' Hoff'. apply Hin. by right.
Qed.

Lemma flag_run_inv slot b buf offs h h' :
  read_ptr (flag_data ds) slot = Ptr b → h !! b = Some buf →
  iterM (write_flag ds slot) offs h = Some h' →
  stores_inside buf offs ∧ h' = <[b := flag_cells buf offs]> h.
Proof.
  intros Hslot. revert h buf.
  induction offs as [|off offs IH]; intros h buf Hb; cbn [iterM].
  - intros [= <-]. split; [by intros off ?%elem_of_nil | by rewrite insert_id].
  - destruct (write_flag ds slot off h) as [h1|] eqn:Hw; [|done]. step_bind.
    apply write_flag_Some in Hw as (b' & buf' & Hslot' & Hb' & Hin & ->).
    assert (b' = b) as -> by congruence. assert (buf' = buf) as -> by congruence.
    intros Hrun.
    apply (IH _ (store buf off 1)) in Hrun as [Hins ->]; [|apply lookup_insert_eq].
    split; [|by rewrite insert_insert_eq].
    intros off' [->|Hoff']%elem_of_cons; [done|].
    specialize (Hins off' Hoff'). by rewrite length_store in Hins.
Qed.

Lemma flag_run_Some slot offs h h' :
  iterM (write_flag ds slot) offs h = Some h' →
  (offs = [] ∧ h' = h) ∨
  ∃ b buf, read_ptr (flag_data ds) slot = Ptr b ∧ h !! b = Some buf ∧
           stores_inside buf offs ∧
           h' = <[b := flag_cells buf offs]> h.
Proof.
  destruct offs as [|off offs].
  - intros [= <-]. by left.
  - intros Hrun. right.
    assert (∃ b buf, read_ptr (flag_data ds) slot = Ptr b ∧ h !! b = Some buf)
      as (b & buf & Hslot & Hb).
    { cbn [iterM] in Hrun.
      destruct (write_flag ds slot off h) as [h1|] eqn:Hw; [|done].
      apply write_flag_Some in Hw as (b & buf & Hslot & Hb & _). by exists b, buf. }
    exists b, buf. split_and!; [done | done |..]; by eapply flag_run_inv.
Qed.

(** Running the same stores again changes nothing. *)
Lemma flag_run_idemp slot offs h h' :
  iterM (write_flag ds slot) offs h = Some h' →
  iterM (write_flag ds slot) offs h' = Some h'.
Proof.
  intros [[-> ->]|(b & buf & Hslot & Hb & Hin & ->)]%flag_run_Some; [done|].
  erewrite flag_run; [|done|apply lookup_insert_eq|].
  - by rewrite insert_insert_eq, flag_cells_idemp.
  - by apply (stores_inside_length buf); [apply length_flag_cells|].
Qed.

(** Cells that a run leaves alone are left alone after other runs. *)
Lemma flag_run_stable slot offs slot' offs' h h' :
  iterM (write_flag ds slot) offs h = Some h →
  iterM (write_flag ds slot') offs' h = Some h' →
  iterM (write_flag ds slot) offs h' = Some h'.
Proof.
  intros [[-> _]|(b & buf & Hslot & Hb & Hin & Hfix)]%flag_run_Some; [done|].
  assert (flag_cells buf offs = buf) as Hbuf.
  { apply (f_equal (.!! b)) in Hfix.
    rewrite lookup_insert_eq, Hb in Hfix. congruence. }
  intros [[-> ->]|(b' & buf' & Hslot' & Hb' & Hin' & ->)]%flag_run_Some.
  { erewrite flag_run by done. by rewrite Hbuf, insert_id. }
  destruct (decide (b' = b)) as [->|Hne].
  - assert (buf' = buf) as -> by congruence.
    erewrite flag_run; [|done|apply lookup_insert_eq|].
    + by rewrite insert_insert_eq, flag_cells_stable.
    + by apply (stores_inside_length buf); [apply length_flag_cells|].
  - erewrite flag_run; [|done|by rewrite lookup_insert_ne|done].
    rewrite Hbuf. apply f_equal, insert_id. by rewrite lookup_insert_ne.
Qed.

(** A run only touches the buffer that its slot points to. *)
Lemma flag_run_frame slot offs h h' b :
  iterM (write_flag ds slot) offs h = Some h' →
  offs = [] ∨ read_ptr (flag_data ds) slot ≠ Ptr b →
  h' !! b = h !! b.
Proof.
  intros [[-> ->]|(b' & buf & Hslot & Hb & _ & ->)]%flag_run_Some; [done|].
  intros [->|Hne].
  - by rewrite insert_id.
  - apply lookup_insert_ne. congruence.
Qed.

End write_flag_facts.

(** ** Flags are only added *)

Lemma flags_added_refl h : flags_added h h.
Proof.
  intros b. destruct (h !! b) as [buf|] eqn:Hb; [|done].
  exists buf. split_and!; [done..|]. intros n. by left.
Qed.

Lemma flags_added_trans h1 h2 h3 :
  flags_added h1 h2 → flags_added h2 h3 → flags_added h1 h3.
Proof.
  intros H12 H23 b. specialize (H12 b). specialize (H23 b).
  destruct (h1 !! b) as [buf1|].
  - destruct H12 as (buf2 & Hb2 & Hlen2 & Hc2). rewrite Hb2 in H23.
    destruct H23 as (buf3 & Hb3 & Hlen3 & Hc3).
    exists buf3. split_and!; [done | congruence |].
    intros n. destruct (Hc3 n) as [->|]; [apply Hc2 | by right].
  - by rewrite H12 in H23.
Qed.

Lemma flag_run_flags_added ds slot offs h h' :
  iterM (write_flag ds slot) offs h = Some h' → flags_added h h'.
Proof.
  intros [[_ ->]|(b & buf & _ & Hb & _ & ->)]%flag_run_Some; [apply flags_added_refl|].
  intros b'. destruct (decide (b' = b)) as [->|Hne].
  - rewrite Hb, lookup_insert_eq. eexists. split_and!; [done|..].
    + apply length_flag_cells.
    + intros n. rewrite lookup_flag_cells. case_decide; [by right | by left].
  - rewrite lookup_insert_ne by done.
    destruct (h !! b') as [buf'|]; [|done].
    exists buf'. split_and!; [done..|]. intros n. by left.
Qed.

Lemma flags_added_cells h h' b buf :
  flags_added h h' → h !! b = Some buf →
  ∃ buf', h' !! b = Some buf' ∧ length buf' = length buf ∧
          (∀ n : nat, buf !! n = Some 1 → buf' !! n = Some 1) ∧
          (∀ (n : nat) v, buf' !! n = Some v → v = 1 ∨ buf !! n = Some v).
Proof.
  intros Hadd Hb. specialize (Hadd b). rewrite Hb in Hadd.
  destruct Hadd as (buf' & Hb' & Hlen & Hcells).
  exists buf'. split_and!; [done..| |].
  - intros n Hone. destruct (Hcells n) as [->| ->]; done.
  - intros n v Hv. destruct (Hcells n) as [Heq|Heq]; rewrite Heq in Hv.
    + by right.
    + left. congruence.
Qed.

(** ** The detectors as runs of flag stores *)

Lemma dw_single_channel_run ds channel h :
  dw_single_channel ds channel h
  = offs ← channel_stores ds channel;
    h' ← iterM (write_flag ds 0) offs h; Some (0, h').
Proof.
  unfold dw_single_channel, channel_stores.
  rewrite for_loop_counters, counters_incr. step_bind.
  rewrite iterM_mapM. by destruct (mapM _ _).
Qed.

Lemma parity_pass_run ds k first slot h :
  read_int (flag_product ds) k = Some slot →
  parity_pass ds k first h
  = offs ← parity_stores ds first; iterM (write_flag ds slot) offs h.
Proof.
  intros Hk. unfold parity_pass, parity_stores.
  rewrite for_loop_counters.
  destruct (counters first (cols ds) incr2) as [columns|]; step_bind; [|done].
  rewrite <- iterM_mapM. unfold column_cells.
  rewrite <- (iterM_nest (λ ii row h,
                 off ← cell_offset row (cols ds) ii; write_flag ds slot off h)).
  apply iterM_ext. intros ii h' _.
  rewrite for_loop_counters, counters_incr. step_bind.
  apply iterM_ext. intros row h'' _. by rewrite Hk.
Qed.

Lemma dw_even_odd_Some ds channel_start h r h' :
  dw_even_odd ds channel_start h = Some (r, h') ↔
  r = 0 ∧ ∃ p0 p1 offs0 offs1 h1,
    read_int (flag_product ds) 0 = Some p0 ∧
    read_int (flag_product ds) 1 = Some p1 ∧
    product_stores ds p0 0 = Some offs0 ∧
    product_stores ds p1 1 = Some offs1 ∧
    iterM (write_flag ds p0) offs0 h = Some h1 ∧
    iterM (write_flag ds p1) offs1 h1 = Some h'.
Proof.
  unfold dw_even_odd, product_stores. split.
  - destruct (read_int (flag_product ds) 0) as [p0|] eqn:Hp0; [|done].
    step_bind. rewrite (parity_pass_run ds 0 0 p0) by done.
    intros Hcall.
    assert (∃ offs0 h1,
              (if decide (p0 > -1) then parity_stores ds 0 else Some []) = Some offs0 ∧
              iterM (write_flag ds p0) offs0 h = Some h1 ∧
              (p1 ← read_int (flag_product ds) 1;
               h2 ← (if decide (p1 > -1) then parity_pass ds 1 1 h1 else Some h1);
               Some (0, h2)) = Some (r, h')) as (offs0 & h1 & Hoffs0 & Hrun0 & Hrest).
    { case_decide.
      - destruct (parity_stores ds 0) as [offs0|]; [|done].
        step_bind in Hcall.
        destruct (iterM (write_flag ds p0) offs0 h) as [h1|] eqn:Hrun0; [|done].
        by exists offs0, h1.
      - by exists [], h. }
    clear Hcall.
    destruct (read_int (flag_product ds) 1) as [p1|] eqn:Hp1; [|done].
    step_bind in Hrest. rewrite (parity_pass_run ds 1 1 p1) in Hrest by done.
    assert (∃ offs1,
              (if decide (p1 > -1) then parity_stores ds 1 else Some []) = Some offs1 ∧
              iterM (write_flag ds p1) offs1 h1 = Some h' ∧ r = 0)
      as (offs1 & Hoffs1 & Hrun1 & ->).
    { case_decide.
      - destruct (parity_stores ds 1) as [offs1|]; [|done].
        step_bind in Hrest.
        destruct (iterM (write_flag ds p1) offs1 h1) as [h2|] eqn:Hrun1; [|done].
        step_bind in Hrest. injection Hrest as <- <-. by exists offs1.
      - step_bind in Hrest. injection Hrest as <- <-. by exists []. }
    split; [done|]. by exists p0, p1, offs0, offs1, h1.
  - intros (-> & p0 & p1 & offs0 & offs1 & h1 & Hp0 & Hp1 & Hoffs0 & Hoffs1 & Hrun0 & Hrun1).
    rewrite Hp0. step_bind. rewrite (parity_pass_run ds 0 0 p0) by done.
    assert ((if decide (p0 > -1)
             then offs ← parity_stores ds 0; iterM (write_flag ds p0) offs h
             else Some h) = Some h1) as ->.
    { destruct (decide (p0 > -1)); [by rewrite Hoffs0|].
      injection Hoffs0 as <-. by injection Hrun0 as <-. }
    step_bind. rewrite Hp1. step_bind.
    rewrite (parity_pass_run ds 1 1 p1) by done.
    assert ((if decide (p1 > -1)
             then offs ← parity_stores ds 1; iterM (write_flag ds p1) offs h1
             else Some h1) = Some h') as ->; [|done].
    destruct (decide (p1 > -1)); [by rewrite Hoffs1|].
    injection Hoffs1 as <-. by injection Hrun1 as <-.
Qed.

Lemma dw_even_odd_None ds channel_start h p0 :
  read_int (flag_product ds) 0 = Some p0 →
  product_stores ds p0 0 = None →
  dw_even_odd ds channel_start h = None.
Proof.
  intros Hp0 Hoffs0.
  destruct (dw_even_odd ds channel_start h) as [[r h']|] eqn:Hcall; [|done].
  apply dw_even_odd_Some in Hcall
    as (_ & p0' & p1 & offs0 & offs1 & h1 & Hp0' & _ & Hoffs0' & _).
  congruence.
Qed.

Lemma dw_single_channel_Some ds channel h r h' :
  dw_single_channel ds channel h = Some (r, h') ↔
  r = 0 ∧ ∃ offs, channel_stores ds channel = Some offs ∧
                  iterM (write_flag ds 0) offs h = Some h'.
Proof.
  rewrite dw_single_channel_run. split.
  - destruct (channel_stores ds channel) as [offs|]; [|done]. step_bind.
    destruct (iterM _ _ h) as [h1|] eqn:Hrun; [|done].
    step_bind. intros [= <- <-]. split; [done|]. by exists offs.
  - intros (-> & offs & -> & Hrun). step_bind. by rewrite Hrun.
Qed.

(** ** The offsets that the detectors store to *)

Lemma elem_of_channel_offsets ds channel off :
  off ∈ channel_offsets ds channel ↔
  ∃ row, 0 ≤ row < rows ds ∧ off = row * cols ds + channel.
Proof.
  unfold channel_offsets. rewrite list_elem_of_fmap. split.
  - intros (row & -> & Hrow%elem_of_seqZ). exists row. split; [lia | done].
  - intros (row & Hrow & ->). exists row. split; [done|].
    apply elem_of_seqZ. lia.
Qed.

Lemma elem_of_column_cells ds columns ii row :
  (ii, row) ∈ column_cells ds columns ↔ ii ∈ columns ∧ 0 ≤ row < rows ds.
Proof.
  unfold column_cells. rewrite list_elem_of_bind. split.
  - intros (ii' & Hrow & Hii).
    apply list_elem_of_fmap in Hrow as (row' & [= -> ->] & Hrow%elem_of_seqZ).
    split; [done | lia].
  - intros [Hii Hrow]. exists ii. split; [|done].
    apply list_elem_of_fmap. exists row. split; [done|]. apply elem_of_seqZ. lia.
Qed.

Lemma elem_of_parity_offsets ds first off :
  off ∈ parity_offsets ds first ↔
  ∃ ii row, first ≤ ii < cols ds ∧ (ii - first) mod 2 = 0 ∧
            0 ≤ row < rows ds ∧ off = row * cols ds + ii.
Proof.
  unfold parity_offsets. rewrite list_elem_of_fmap. split.
  - intros ([ii row] & -> & [Hii Hrow]%elem_of_column_cells).
    apply elem_of_indices in Hii as [Hii Hmod]; [|lia].
    by exists ii, row.
  - intros (ii & row & Hii & Hmod & Hrow & ->). exists (ii, row). split; [done|].
    apply elem_of_column_cells. split; [|done].
    apply elem_of_indices; [lia | done].
Qed.

(** The offsets that the detectors compute are the row-major ones when
    the matrix has at most [INT_MAX] cells (and [ii += 2] stays an [int]). *)
Lemma channel_stores_Some ds channel :
  0 ≤ channel < cols ds → rows ds * cols ds ≤ INT_MAX →
  channel_stores ds channel = Some (channel_offsets ds channel).
Proof.
  intros Hchannel Hmax. unfold channel_stores, channel_offsets.
  apply mapM_fmap_Some. intros row Hrow%elem_of_seqZ.
  apply (cell_offset_Some (rows ds)); [lia | done | done].
Qed.

Lemma parity_stores_Some ds first :
  0 ≤ first → cols ds < INT_MAX → rows ds * cols ds ≤ INT_MAX →
  parity_stores ds first = Some (parity_offsets ds first).
Proof.
  intros Hfirst Hcols Hmax. unfold parity_stores, parity_offsets.
  rewrite counters_incr2 by (unfold INT_MIN; lia). step_bind.
  apply mapM_fmap_Some. intros [ii row] [Hii Hrow]%elem_of_column_cells.
  apply elem_of_indices in Hii as [Hii _]; [|lia]. cbn [fst snd].
  apply (cell_offset_Some (rows ds)); [done | lia | done].
Qed.

(** The detectors store inside the matrix. *)
Lemma channel_offsets_in_matrix ds channel off :
  0 ≤ channel < cols ds → off ∈ channel_offsets ds channel →
  0 ≤ off < rows ds * cols ds.
Proof.
  intros Hchannel (row & Hrow & ->)%elem_of_channel_offsets. nia.
Qed.

Lemma parity_offsets_in_matrix ds first off :
  0 ≤ first → off ∈ parity_offsets ds first → 0 ≤ off < rows ds * cols ds.
Proof.
  intros Hfirst (ii & row & Hii & _ & Hrow & ->)%elem_of_parity_offsets. nia.
Qed.

Lemma channel_stores_inside ds channel buf :
  0 ≤ channel < cols ds → rows ds * cols ds ≤ Z.of_nat (length buf) →
  stores_inside buf (channel_offsets ds channel).
Proof.
  intros Hchannel Hlen off Hoff%channel_offsets_in_matrix; [lia | done].
Qed.

Lemma parity_stores_inside ds first buf :
  0 ≤ first → rows ds * cols ds ≤ Z.of_nat (length buf) →
  stores_inside buf (parity_offsets ds first).
Proof.
  intros Hfirst Hlen off Hoff%parity_offsets_in_matrix; [lia | done].
Qed.

Lemma zero_matrix_room rows cols :
  rows * cols ≤ Z.of_nat (length (zero_matrix rows cols)).
Proof. unfold zero_matrix. rewrite length_replicate. lia. Qed.

(** The cell at a row-major offset is in the column [off mod cols]. *)
Lemma row_major_column cols row col :
  0 ≤ col < cols → (row * cols + col) mod cols = col.
Proof. intros Hcol. rewrite Z.add_comm, Z.mod_add by lia. apply Z.mod_small. lia. Qed.

Lemma parity_offsets_column ds first off :
  0 ≤ first → 0 ≤ cols ds → 0 ≤ off < rows ds * cols ds →
  off ∈ parity_offsets ds first ↔
  first ≤ off mod cols ds ∧ (off mod cols ds - first) mod 2 = 0.
Proof.
  intros Hfirst Hnn Hoff.
  assert (0 < cols ds) as Hcols.
  { destruct (decide (cols ds = 0)) as [Hz|]; [rewrite Hz in Hoff|]; lia. }
  rewrite elem_of_parity_offsets. split.
  - intros (ii & row & Hii & Hmod & Hrow & ->).
    rewrite row_major_column by lia. split; [lia | done].
  - intros [Hge Hmod].
    pose proof (Z.mod_pos_bound off (cols ds) Hcols) as Hbound.
    pose proof (Z.div_mod off (cols ds) ltac:(lia)) as Hdiv.
    exists (off mod cols ds), (off / cols ds). split_and!; [lia.. | done | | | lia].
    + apply Z.div_pos; lia.
    + apply Z.div_lt_upper_bound; lia.
Qed.

(** ** Counting flagged cells *)

Lemma count_flagged_app buf1 buf2 :
  count_flagged (buf1 ++ buf2) = count_flagged buf1 + count_flagged buf2.
Proof. unfold count_flagged. rewrite filter_app, length_app. lia. Qed.

Lemma count_parity_row (n : nat) first :
  first = 0 ∨ first = 1 →
  count_flagged (parity_row (Z.of_nat n) first) = (Z.of_nat n + 1 - first) / 2.
Proof.
  intros Hfirst. unfold parity_row. induction n as [|n IH].
  - destruct Hfirst as [->| ->]; reflexivity.
  - rewrite seqZ_S, fmap_app, count_flagged_app, IH. cbn [fmap list_fmap].
    rewrite Z.add_0_l. unfold count_flagged at 1, parity_flag.
    rewrite Nat2Z.inj_succ.
    case_decide as Hcol; cbn [filter list_filter length];
      [rewrite decide_True by done | rewrite decide_False by lia];
      cbn [length]; Z.to_euclidean_division_equations; lia.
Qed.

Lemma count_parity_matrix (r : nat) cols first :
  0 ≤ cols →
  count_flagged (parity_matrix (Z.of_nat r) cols first)
  = Z.of_nat r * count_flagged (parity_row cols first).
Proof.
  intros Hcols. unfold parity_matrix. induction r as [|r IH].
  - reflexivity.
  - replace (Z.of_nat (S r) * cols) with (Z.of_nat r * cols + cols) by lia.
    rewrite seqZ_app, fmap_app, count_flagged_app, IH by lia.
    replace (0 + Z.of_nat r * cols) with (Z.of_nat r * cols + 0) by lia.
    rewrite <- fmap_add_seqZ, <- list_fmap_compose.
    assert ((λ off, parity_flag first (off mod cols)) ∘ Z.add (Z.of_nat r * cols)
              <$> seqZ 0 cols = parity_row cols first) as ->; [|lia].
    apply list_fmap_ext. intros i col Hcol.
    apply list_elem_of_lookup_2, elem_of_seqZ in Hcol. cbn.
    by rewrite row_major_column by lia.
Qed.

Lemma count_flagged_parity_matrix rows cols first :
  0 ≤ rows → 0 ≤ cols → first = 0 ∨ first = 1 →
  count_flagged (parity_matrix rows cols first) = (cols + 1 - first) / 2 * rows.
Proof.
  intros Hrows Hcols Hfirst.
  rewrite <- (Z2Nat.id rows Hrows) at 1. rewrite count_parity_matrix by done.
  rewrite <- (Z2Nat.id cols Hcols) at 1. rewrite count_parity_row by done.
  rewrite !Z2Nat.id by done. lia.
Qed.

(** [(c + 1) / 2] is the least integer that is at least [c / 2], and [c / 2]
    the greatest that is at most [c / 2]. *)
Remark half_ceiling_floor c :
  c ≤ 2 * ((c + 1) / 2) < c + 2 ∧ c - 2 < 2 * (c / 2) ≤ c.
Proof. Z.to_euclidean_division_equations. lia. Qed.

(** ** A parity pass over a zeroed matrix *)

Lemma length_parity_matrix rows cols first :
  length (parity_matrix rows cols first) = Z.to_nat (rows * cols).
Proof. unfold parity_matrix. by rewrite length_fmap, length_seqZ. Qed.

Lemma parity_pass_zero_matrix ds first :
  0 ≤ first → 0 ≤ cols ds →
  flag_cells (zero_matrix (rows ds) (cols ds)) (parity_offsets ds first)
  = parity_matrix (rows ds) (cols ds) first.
Proof.
  intros Hfirst Hcols. apply list_eq. intros n.
  unfold parity_matrix, zero_matrix.
  rewrite lookup_flag_cells, length_replicate, list_lookup_fmap.
  destruct (decide (Z.of_nat n < rows ds * cols ds)) as [Hn|Hn].
  - rewrite lookup_seqZ_lt by lia.
    rewrite (lookup_replicate_2 (Z.to_nat (rows ds * cols ds)) 0 n) by lia.
    cbn [fmap option_fmap option_map].
    rewrite Z.add_0_l. unfold parity_flag.
    pose proof (parity_offsets_column ds first (Z.of_nat n)) as Hcol.
    destruct (decide (Z.of_nat n ∈ parity_offsets ds first)) as [Hin|Hnin].
    + rewrite !decide_True; [done|apply Hcol; [lia..|done]|split; [done | lia]].
    + rewrite !decide_False; [done|..].
      * intros Hin. apply Hnin, Hcol; [lia..|done].
      * by intros [? _].
  - rewrite lookup_seqZ_ge by lia. cbn [fmap option_fmap option_map].
    rewrite decide_False by lia. apply lookup_replicate_None. lia.
Qed.

Lemma load_parity_matrix rows cols first row col :
  0 ≤ row < rows → 0 ≤ col < cols →
  load (parity_matrix rows cols first) (row * cols + col)
  = Some (parity_flag first col).
Proof.
  intros Hrow Hcol. unfold load, parity_matrix.
  assert (0 ≤ row * cols + col < rows * cols) as Hoff by nia.
  rewrite decide_True by lia.
  rewrite list_lookup_fmap, lookup_seqZ_lt by lia.
  cbn [fmap option_fmap option_map].
  by rewrite Z2Nat.id, Z.add_0_l, row_major_column by lia.
Qed.

Lemma load_parity_matrix_Some rows cols first off v :
  load (parity_matrix rows cols first) off = Some v →
  v = parity_flag first (off mod cols).
Proof.
  unfold load, parity_matrix. case_decide; [|done].
  rewrite list_lookup_fmap.
  destruct (seqZ 0 (rows * cols) !! Z.to_nat off) as [off'|] eqn:Hoff; [|done].
  apply lookup_seqZ in Hoff as [-> _]. cbn [fmap option_fmap option_map].
  intros [= <-]. f_equal. f_equal. lia.
Qed.

Lemma parity_flag_even col : 0 ≤ col → parity_flag 0 col = if Z.even col then 1 else 0.
Proof.
  intros Hcol. unfold parity_flag. rewrite Z.sub_0_r, Zmod_even.
  destruct (Z.even col); [rewrite decide_True | rewrite decide_False]; [done|lia|done|lia].
Qed.

Lemma parity_flag_odd col : 0 ≤ col → parity_flag 1 col = if Z.odd col then 1 else 0.
Proof.
  intros Hcol. unfold parity_flag.
  pose proof (Zmod_odd col) as Hodd.
  destruct (Z.odd col); [rewrite decide_True | rewrite decide_False]; try done.
  - split; Z.to_euclidean_division_equations; lia.
  - intros [_ Hmod]. Z.to_euclidean_division_equations; lia.
Qed.

(** ** The copy loops *)

Lemma malloc_room {A} n (junk : A) : n ≤ Z.of_nat (length (malloc n junk)).
Proof. rewrite length_malloc. lia. Qed.

Lemma copy_ints_Some src n dst :
  n ≤ Z.of_nat (length dst) →
  ∃ dst', copy_ints src n dst = Some dst' ∧ length dst' = length dst ∧
    ∀ i, load dst' i
         = if decide (0 ≤ i < n ∧ i < Z.of_nat (length dst))
           then Some (read_int src i) else load dst i.
Proof.
  intros Hroom. unfold copy_ints. rewrite for_loop_counters, counters_incr. step_bind.
  destruct (decide (0 ≤ n)) as [Hn|Hn].
  2: { rewrite seqZ_nil by lia. exists dst. split_and!; [done..|].
       intros i. rewrite decide_False; [done | lia]. }
  revert Hroom. rewrite <- (Z2Nat.id n Hn). generalize (Z.to_nat n) as k. clear n Hn.
  induction k as [|k IH]; intros Hroom.
  - exists dst. split_and!; [done..|].
    intros i. rewrite decide_False; [done | lia].
  - destruct IH as (dst' & Hrun & Hlen & Hcells); [lia|].
    rewrite seqZ_S, iterM_app, Hrun. cbn [mbind option_bind iterM].
    rewrite Z.add_0_l, assign_inside by lia.
    eexists. split_and!; [done|by rewrite length_store|].
    intros i.
    destruct (decide (i = Z.of_nat k)) as [->|Hne].
    + rewrite load_store_eq by lia. rewrite decide_True; [done | lia].
    + rewrite load_store_ne by done. rewrite Hcells.
      destruct (decide (0 ≤ i < Z.of_nat k ∧ i < Z.of_nat (length dst))).
      * rewrite decide_True; [done | lia].
      * rewrite decide_False; [done | lia].
Qed.

(** ** The resampling loop *)

Lemma lcg_rand_nonneg g : 0 ≤ (lcg_rand g).1.
Proof. unfold lcg_rand. cbn [fst]. apply Z.mod_pos_bound. lia. Qed.

Section bootstrap_facts.
Variable rng : Type.
Variable rand : rng → Z * rng.
(** [rand()] returns a value between 0 and [RAND_MAX]. *)
Hypothesis rand_nonneg : ∀ g, 0 ≤ (rand g).1.

Lemma resample_loop (len_in : Z) (x_out : list double) (g : rng) (k : nat) :
  0 < len_in → (k ≤ length x_out)%nat →
  ∃ x_out',
    iterM (λ ii '(x_out, g),
             let '(r, g') := rand g in
             v ← c_rem r len_in;
             x_out' ← assign x_out ii (double_of_int v);
             Some (x_out', g'))
          (seqZ 0 (Z.of_nat k)) (x_out, g)
    = Some (x_out', rand_after rng rand k g) ∧
    length x_out' = length x_out ∧
    (∀ ii, 0 ≤ ii < Z.of_nat k → ii < Z.of_nat (length x_out) →
           ∃ v, load x_out' ii = Some (double_of_int v) ∧ 0 ≤ v < len_in) ∧
    (∀ ii, Z.of_nat k ≤ ii → load x_out' ii = load x_out ii).
Proof.
  intros Hlen. induction k as [|k IH]; intros Hroom.
  - exists x_out. split_and!; [reflexivity|done| |done]. intros ii Hii. lia.
  - destruct IH as (x' & Hrun & Hlen' & Hdrawn & Hrest); [lia|].
    rewrite seqZ_S, iterM_app, Hrun. cbn [mbind option_bind iterM].
    rewrite Z.add_0_l.
    change (rand_after rng rand (S k) g) with (rand (rand_after rng rand k g)).2.
    pose proof (rand_nonneg (rand_after rng rand k g)) as Hr.
    destruct (rand (rand_after rng rand k g)) as [r g'] eqn:Hrand.
    cbn [fst snd] in *.
    unfold c_rem. rewrite decide_False by lia. step_bind.
    rewrite assign_inside by lia. step_bind.
    eexists. split_and!; [done|by rewrite length_store|..].
    + intros ii Hii Hin. destruct (decide (ii = Z.of_nat k)) as [->|Hne].
      * rewrite load_store_eq by lia. eexists. split; [done|].
        apply Z.rem_bound_pos; lia.
      * rewrite load_store_ne by done. apply Hdrawn; lia.
    + intros ii Hii. rewrite load_store_ne by lia. apply Hrest. lia.
Qed.

(** C6. For [len_in > 0] and [len_out >= 0], [bootstrap_resample] on an
    output array of at least [len_out] cells returns 0 after [len_out]
    calls of [rand()]; each of the cells [0 .. len_out - 1] of [x_out]
    then holds an integer of the range [0, len_in), and the cells from
    [len_out] on hold what they held. *)
Theorem bootstrap_resample_range x_in len_in x_out len_out g :
  len_in > 0 → len_out >= 0 → len_out ≤ Z.of_nat (length x_out) →
  ∃ x_out',
    bootstrap_resample rng rand x_in len_in x_out len_out g
    = Some (0, (x_out', rand_after rng rand (Z.to_nat len_out) g)) ∧
    length x_out' = length x_out ∧
    (∀ ii, 0 ≤ ii < len_out →
           ∃ v, load x_out' ii = Some (double_of_int v) ∧ 0 ≤ v < len_in) ∧
    (∀ ii, len_out ≤ ii → load x_out' ii = load x_out ii).
Proof.
  intros Hin Hout Hroom. unfold bootstrap_resample.
  rewrite for_loop_counters, counters_incr. step_bind.
  destruct (resample_loop len_in x_out g (Z.to_nat len_out))
    as (x' & Hrun & Hlen & Hdrawn & Hrest); [lia..|].
  rewrite Z2Nat.id in Hrun, Hdrawn, Hrest by lia.
  rewrite Hrun. exists x'. split_and!; [done..| |done].
  intros ii Hii. apply Hdrawn; lia.
Qed.

End bootstrap_facts.

(** * The claims

    C6 is [bootstrap_resample_range], stated with the resampling loop
    above, where [rand()] is at hand. *)

(** ** Spectrogram context *)

(** C8. [init_dw] stores [data], [rows] and [cols] as they are given (the
    pointer itself, not a copy of the buffer; no value is checked),
    returns 0 for every input, and leaves the five other fields of the
    structure as they were. *)
Theorem init_dw_stores_three_fields ds data' rows' cols' :
  (init_dw ds data' rows' cols').1 = 0 ∧
  data (init_dw ds data' rows' cols').2 = data' ∧
  rows (init_dw ds data' rows' cols').2 = rows' ∧
  cols (init_dw ds data' rows' cols').2 = cols' ∧
  flag_data (init_dw ds data' rows' cols').2 = flag_data ds ∧
  l_flag (init_dw ds data' rows' cols').2 = l_flag ds ∧
  flag_data_ind (init_dw ds data' rows' cols').2 = flag_data_ind ds ∧
  flag_product (init_dw ds data' rows' cols').2 = flag_product ds ∧
  l_flag_prod (init_dw ds data' rows' cols').2 = l_flag_prod ds.
Proof. by split_and!. Qed.

(** ** Flag output registry *)

(** C2, as the specification has it, fails: after [dw_alloc_flag_out] on a
    registry whose two slots were in use, slot 0 does not read back as
    null.  [malloc] does not initialise the new array. *)
Lemma dw_alloc_flag_out_slot_not_null :
  l_flag (dw_alloc_flag_out demo_struct 2).2 = 2 ∧
  load (flag_data (dw_alloc_flag_out demo_struct 2).2) 0 ≠ Some Null.
Proof. split; [reflexivity | discriminate]. Qed.

(** C2, amended.  After [dw_alloc_flag_out data_struct l_flag] the call has
    returned 0, the registry has [l_flag] slots ([l_flag] is recorded and
    the slot array has that many cells), and every one of them is
    uninitialised: it holds an indeterminate value, which is not known to
    be null.  The other fields are as before. *)
Theorem dw_alloc_flag_out_uninitialised ds n :
  (dw_alloc_flag_out ds n).1 = 0 ∧
  l_flag (dw_alloc_flag_out ds n).2 = n ∧
  length (flag_data (dw_alloc_flag_out ds n).2) = Z.to_nat n ∧
  (∀ i, 0 ≤ i < n → load (flag_data (dw_alloc_flag_out ds n).2) i = Some Indet) ∧
  data (dw_alloc_flag_out ds n).2 = data ds ∧
  rows (dw_alloc_flag_out ds n).2 = rows ds ∧
  cols (dw_alloc_flag_out ds n).2 = cols ds ∧
  flag_data_ind (dw_alloc_flag_out ds n).2 = flag_data_ind ds ∧
  flag_product (dw_alloc_flag_out ds n).2 = flag_product ds ∧
  l_flag_prod (dw_alloc_flag_out ds n).2 = l_flag_prod ds.
Proof.
  split_and!; try done.
  - apply length_malloc.
  - intros i Hi. by apply load_malloc.
Qed.

(** C3, as the specification has it, fails: it has every negative index
    below [l_flag] return the success status.  On the zeroed structure the
    index -1 is below [l_flag = 0], the comparison lets it pass, and the
    store goes through the null slot array; on the small registry it goes
    to the memory before the array.  Neither call returns a status. *)
Lemma dw_set_flag_out_negative_index_faults :
  (-1 < l_flag dw_null ∧
   dw_set_flag_out dw_null (Ptr 1%positive) (-1) = None) ∧
  (-1 < l_flag demo_struct ∧
   dw_set_flag_out demo_struct (Ptr 3%positive) (-1) = None).
Proof. split_and!; reflexivity. Qed.

(** C3, amended.  [dw_set_flag_out] returns the error status -1 exactly
    when [i_flag >= l_flag], and then the registry is the one it was
    given.  An index below [l_flag] is not checked any further.  When it
    names a cell of the slot array (it is at least 0 and below the length
    of the array, which is [l_flag] after [dw_alloc_flag_out]), the call
    returns 0, that slot holds the pointer, and no other slot and no other
    field changes.  When it does not, as every negative index below
    [l_flag], the store is outside the slot array and the call has no
    result. *)
Theorem dw_set_flag_out_index_check ds flag_data' i_flag :
  (i_flag >= l_flag ds → dw_set_flag_out ds flag_data' i_flag = Some (-1, ds)) ∧
  (∀ r ds', dw_set_flag_out ds flag_data' i_flag = Some (r, ds') →
     (r = -1 ↔ i_flag >= l_flag ds) ∧ (r = -1 ∨ r = 0)) ∧
  (i_flag < l_flag ds → 0 ≤ i_flag < Z.of_nat (length (flag_data ds)) →
     ∃ ds',
       dw_set_flag_out ds flag_data' i_flag = Some (0, ds') ∧
       load (flag_data ds') i_flag = Some flag_data' ∧
       (∀ j, j ≠ i_flag → load (flag_data ds') j = load (flag_data ds) j) ∧
       length (flag_data ds') = length (flag_data ds) ∧
       data ds' = data ds ∧ rows ds' = rows ds ∧ cols ds' = cols ds ∧
       l_flag ds' = l_flag ds ∧ flag_data_ind ds' = flag_data_ind ds ∧
       flag_product ds' = flag_product ds ∧ l_flag_prod ds' = l_flag_prod ds) ∧
  (i_flag < l_flag ds → ¬ (0 ≤ i_flag < Z.of_nat (length (flag_data ds))) →
     dw_set_flag_out ds flag_data' i_flag = None).
Proof.
  unfold dw_set_flag_out. case_decide as Hi.
  - split_and!; [done | | lia | lia].
    intros r ds' [= <- <-]. split; [done | by left].
  - split_and!; [lia | | |].
    + intros r ds'.
      destruct (assign (flag_data ds) i_flag flag_data') as [slots|]; [|done].
      step_bind. intros [= <- <-]. split; [split; [done | lia] | by right].
    + intros _ Hin. rewrite assign_inside by done. step_bind.
      eexists. split; [done|]. cbn [flag_data data rows cols l_flag flag_data_ind
                                   flag_product l_flag_prod].
      split_and!; try done.
      * by apply load_store_eq.
      * intros j Hj. by apply load_store_ne.
      * apply length_store.
    + intros _ Hout. by rewrite assign_outside.
Qed.


(** ** Detectors: what they leave alone *)

(** C5. If the table entry of parity product [k] is -1, [dw_even_odd]
    stores nothing for that product: a buffer that is not the destination
    of the other product, when that one is active, holds after the call
    what it held before. *)
Theorem dw_even_odd_inactive_product ds channel_start h r h' k b :
  k = 0 ∨ k = 1 →
  read_int (flag_product ds) k = Some (-1) →
  dw_even_odd ds channel_start h = Some (r, h') →
  (∀ slot, read_int (flag_product ds) (1 - k) = Some slot → slot > -1 →
           read_ptr (flag_data ds) slot ≠ Ptr b) →
  h' !! b = h !! b.
Proof.
  intros Hk Hoff Hcall Hother.
  apply dw_even_odd_Some in Hcall
    as (-> & p0 & p1 & offs0 & offs1 & h1 & Hp0 & Hp1 & Hoffs0 & Hoffs1 & Hrun0 & Hrun1).
  unfold product_stores in Hoffs0, Hoffs1.
  transitivity (h1 !! b).
  - eapply flag_run_frame; [exact Hrun1|].
    destruct (decide (p1 > -1)) as [Hact|]; [|injection Hoffs1 as <-; by left].
    destruct Hk as [->| ->]; [|rewrite Hp1 in Hoff; injection Hoff as ->; lia].
    right. by apply Hother.
  - eapply flag_run_frame; [exact Hrun0|].
    destruct (decide (p0 > -1)) as [Hact|]; [|injection Hoffs0 as <-; by left].
    destruct Hk as [->| ->]; [rewrite Hp0 in Hoff; injection Hoff as ->; lia|].
    right. by apply Hother.
Qed.

(** ** Detectors: flags are only added *)

(** C10. A call of [dw_even_odd] or of [dw_single_channel] stores no other
    value than 1 into the buffers: every buffer is still there with its
    length, a cell that held 1 before the call holds 1 after it, and a
    cell holds after the call either 1 or the value it held before. *)
Theorem detectors_only_add_flags ds channel_start channel h r h' b buf :
  dw_even_odd ds channel_start h = Some (r, h') ∨
  dw_single_channel ds channel h = Some (r, h') →
  h !! b = Some buf →
  ∃ buf', h' !! b = Some buf' ∧ length buf' = length buf ∧
          (∀ n : nat, buf !! n = Some 1 → buf' !! n = Some 1) ∧
          (∀ (n : nat) v, buf' !! n = Some v → v = 1 ∨ buf !! n = Some v).
Proof.
  intros Hcall. apply flags_added_cells.
  destruct Hcall as [Hcall|Hcall].
  - apply dw_even_odd_Some in Hcall
      as (_ & p0 & p1 & offs0 & offs1 & h1 & _ & _ & _ & _ & Hrun0 & Hrun1).
    apply (flags_added_trans h h1 h'); by eapply flag_run_flags_added.
  - apply dw_single_channel_Some in Hcall as (_ & offs & _ & Hrun).
    by eapply flag_run_flags_added.
Qed.

(** ** Detectors: idempotence *)

(** C7. When a call of [dw_even_odd], or of [dw_single_channel], has
    returned, the same call again, on the buffers that the first one left,
    returns the same status and leaves every buffer as the first call left
    it.  This holds whatever the buffers held before the first call, so for
    freshly zeroed ones too. *)
Theorem detectors_idempotent ds channel_start channel h r h' :
  (dw_even_odd ds channel_start h = Some (r, h') →
   dw_even_odd ds channel_start h' = Some (r, h')) ∧
  (dw_single_channel ds channel h = Some (r, h') →
   dw_single_channel ds channel h' = Some (r, h')).
Proof.
  split.
  - intros Hcall.
    apply dw_even_odd_Some in Hcall
      as (-> & p0 & p1 & offs0 & offs1 & h1 & Hp0 & Hp1 & Hoffs0 & Hoffs1 & Hrun0 & Hrun1).
    apply dw_even_odd_Some. split; [done|]. exists p0, p1, offs0, offs1, h'.
    split_and!; [done..| |].
    + eapply flag_run_stable; [|exact Hrun1]. by eapply flag_run_idemp.
    + by eapply flag_run_idemp.
  - intros (-> & offs & Hoffs & Hrun)%dw_single_channel_Some.
    apply dw_single_channel_Some. split; [done|]. exists offs.
    split; [done|]. by eapply flag_run_idemp.
Qed.

(** ** Detectors: the cells they flag *)

(** C1, as the specification has it, fails for a spectrogram of 3 rows
    and [2 ^ 30] columns: both products are active, their slots hold two
    different zeroed matrices of [rows * cols] cells, and the call faults.
    In the first column, [row * cols] is [2 ^ 31] for [row = 2], which is
    no [int]. *)
Lemma dw_even_odd_wide_matrix_faults :
  (0 ≤ rows wide_struct ∧ 0 ≤ cols wide_struct) ∧
  (read_int (flag_product wide_struct) 0 = Some 0 ∧
   read_int (flag_product wide_struct) 1 = Some 1) ∧
  (read_ptr (flag_data wide_struct) 0 = Ptr 1%positive ∧
   read_ptr (flag_data wide_struct) 1 = Ptr 2%positive) ∧
  (wide_heap !! 1%positive
   = Some (zero_matrix (rows wide_struct) (cols wide_struct)) ∧
   wide_heap !! 2%positive
   = Some (zero_matrix (rows wide_struct) (cols wide_struct))) ∧
  dw_even_odd wide_struct 0%Q wide_heap = None.
Proof.
  split_and!; [done..| | |].
  - apply lookup_insert_eq.
  - unfold wide_heap. rewrite lookup_insert_ne by done. apply lookup_insert_eq.
  - apply (dw_even_odd_None wide_struct 0%Q wide_heap 0); [done|].
    unfold product_stores, parity_stores. rewrite decide_True by done.
    rewrite counters_incr2 by done. step_bind.
    apply (mapM_fault _ _ (0, 2)); [|done].
    apply elem_of_column_cells. split; [|done].
    apply elem_of_indices; done.
Qed.

(** The other [int] that the detector may miss: with [INT_MAX] columns and
    product 0 active, [ii += 2] of the loop as it is written overflows
    after the column [INT_MAX - 1], even for a spectrogram of no row (and
    the OpenMP loop is not specified there, see [parity_pass]). *)
Lemma dw_even_odd_counter_overflow h :
  dw_even_odd (Dw Null 0 INT_MAX [Ptr 1%positive; Ptr 2%positive] 2
                  [Some 10; Some 11] [Some 0; Some 1] 2) 0%Q h = None.
Proof.
  apply (dw_even_odd_None _ _ _ 0); [done|].
  unfold product_stores, parity_stores. rewrite decide_True by done.
  unfold counters. cbn [cols].
  rewrite loop_counters_incr2_overflow; [done | done | done | lia].
Qed.

(** C1, amended.  Let [rows, cols >= 0] with [rows * cols <= INT_MAX] and
    [cols < INT_MAX], let both parity products be active (their table
    entries are above -1) and name two slots that hold pointers to two
    different matrices of [rows * cols] cells, all zero (two slots that
    share a matrix get both passes in it, [dw_even_odd_shared_matrix]).
    Then
    [dw_even_odd] returns 0; the matrix of product 0 (the odd channels,
    counted from 1) has 1 in the columns 0, 2, 4, ... of every row and 0
    elsewhere, [ceil(cols / 2) * rows] flagged cells in all; the matrix of
    product 1 has 1 in the columns 1, 3, 5, ... of every row and 0
    elsewhere, [floor(cols / 2) * rows] flagged cells in all; no offset is
    flagged in both; the other buffers are as they were. *)
Theorem dw_even_odd_parity_counts ds channel_start h p0 p1 b0 b1 :
  0 ≤ rows ds → 0 ≤ cols ds →
  rows ds * cols ds ≤ INT_MAX → cols ds < INT_MAX →
  read_int (flag_product ds) 0 = Some p0 → p0 > -1 →
  read_int (flag_product ds) 1 = Some p1 → p1 > -1 →
  read_ptr (flag_data ds) p0 = Ptr b0 →
  read_ptr (flag_data ds) p1 = Ptr b1 →
  b0 ≠ b1 →
  h !! b0 = Some (zero_matrix (rows ds) (cols ds)) →
  h !! b1 = Some (zero_matrix (rows ds) (cols ds)) →
  ∃ m0 m1,
    dw_even_odd ds channel_start h = Some (0, <[b1 := m1]> (<[b0 := m0]> h)) ∧
    length m0 = Z.to_nat (rows ds * cols ds) ∧
    length m1 = Z.to_nat (rows ds * cols ds) ∧
    count_flagged m0 = (cols ds + 1) / 2 * rows ds ∧
    count_flagged m1 = cols ds / 2 * rows ds ∧
    (∀ row col, 0 ≤ row < rows ds → 0 ≤ col < cols ds →
       load m0 (row * cols ds + col) = Some (if Z.even col then 1 else 0) ∧
       load m1 (row * cols ds + col) = Some (if Z.odd col then 1 else 0)) ∧
    (∀ off, ¬ (load m0 off = Some 1 ∧ load m1 off = Some 1)).
Proof.
  intros Hrows Hcols Hcells Hwide Hp0 Hact0 Hp1 Hact1 Hb0 Hb1 Hne Hm0 Hm1.
  exists (parity_matrix (rows ds) (cols ds) 0), (parity_matrix (rows ds) (cols ds) 1).
  split_and!.
  - apply dw_even_odd_Some. split; [done|].
    exists p0, p1, (parity_offsets ds 0), (parity_offsets ds 1),
      (<[b0 := parity_matrix (rows ds) (cols ds) 0]> h).
    unfold product_stores. rewrite !decide_True by done.
    split_and!; [done | done | by apply parity_stores_Some..| |].
    + erewrite flag_run; [|done|done|].
      * by rewrite parity_pass_zero_matrix.
      * apply parity_stores_inside; [done | apply zero_matrix_room].
    + erewrite flag_run; [|done|by rewrite lookup_insert_ne|].
      * by rewrite parity_pass_zero_matrix.
      * apply parity_stores_inside; [done | apply zero_matrix_room].
  - apply length_parity_matrix.
  - apply length_parity_matrix.
  - rewrite count_flagged_parity_matrix by auto. by rewrite Z.sub_0_r.
  - rewrite count_flagged_parity_matrix by auto. do 2 f_equal. lia.
  - intros row col Hrow Hcol. rewrite !load_parity_matrix by done.
    by rewrite parity_flag_even, parity_flag_odd by lia.
  - intros off [Hflag0 Hflag1].
    apply load_parity_matrix_Some in Hflag0, Hflag1.
    unfold parity_flag in Hflag0, Hflag1.
    destruct (decide (0 ≤ off mod cols ds ∧ _)) as [[_ Heven]|]; [|done].
    destruct (decide (1 ≤ off mod cols ds ∧ _)) as [[_ Hodd]|]; [|done].
    revert Heven Hodd. Z.to_euclidean_division_equations. lia.
Qed.

(** C9, as it is stated, fails for the same spectrogram: slot 0 holds a
    pointer to a matrix of [rows * cols] cells, channel 0 is a channel,
    and the call faults at [row = 2], where [row * cols] is no [int]. *)
Lemma dw_single_channel_wide_matrix_faults :
  read_ptr (flag_data wide_struct) 0 = Ptr 1%positive ∧
  wide_heap !! 1%positive = Some (zero_matrix 3 1073741824) ∧
  length (zero_matrix 3 1073741824)
  = Z.to_nat (rows wide_struct * cols wide_struct) ∧
  0 ≤ 0 < cols wide_struct ∧
  dw_single_channel wide_struct 0 wide_heap = None.
Proof.
  split_and!; [done | | | done | done |].
  - apply lookup_insert_eq.
  - apply length_replicate.
  - rewrite dw_single_channel_run.
    assert (channel_stores wide_struct 0 = None) as -> by (vm_compute; reflexivity).
    done.
Qed.

(** C9, amended.  Let slot 0 of the registry hold a pointer to a matrix of
    [rows * cols] cells, with [rows * cols <= INT_MAX], and let
    [0 <= channel < cols].  Then [dw_single_channel] returns 0 and has
    stored into that matrix alone: the cell [(row, channel)] holds 1 for
    every [0 <= row < rows], and every other cell of the matrix holds what
    it held.  The product table is not read: with any other table the call
    does the same. *)
Theorem dw_single_channel_slot_zero ds channel h b buf :
  read_ptr (flag_data ds) 0 = Ptr b →
  h !! b = Some buf →
  length buf = Z.to_nat (rows ds * cols ds) →
  rows ds * cols ds ≤ INT_MAX →
  0 ≤ channel < cols ds →
  ∃ buf',
    dw_single_channel ds channel h = Some (0, <[b := buf']> h) ∧
    length buf' = length buf ∧
    (∀ row, 0 ≤ row < rows ds → load buf' (row * cols ds + channel) = Some 1) ∧
    (∀ row col, 0 ≤ row < rows ds → 0 ≤ col < cols ds → col ≠ channel →
       load buf' (row * cols ds + col) = load buf (row * cols ds + col)) ∧
    (∀ off, (∀ row, 0 ≤ row < rows ds → off ≠ row * cols ds + channel) →
       load buf' off = load buf off) ∧
    (∀ flag_product' l_flag_prod',
       dw_single_channel (with_flag_product ds flag_product' l_flag_prod') channel h
       = dw_single_channel ds channel h).
Proof.
  intros Hslot Hb Hlen Hcells Hchannel.
  exists (flag_cells buf (channel_offsets ds channel)).
  assert (∀ off, (∀ row, 0 ≤ row < rows ds → off ≠ row * cols ds + channel) →
            load (flag_cells buf (channel_offsets ds channel)) off = load buf off)
    as Hother.
  { intros off Hoff. rewrite load_flag_cells, decide_False; [done|].
    intros [(row & Hrow & ->)%elem_of_channel_offsets _]. by eapply Hoff. }
  split_and!.
  - apply dw_single_channel_Some. split; [done|].
    exists (channel_offsets ds channel).
    split; [by apply channel_stores_Some|].
    apply flag_run; [done | done |].
    apply channel_stores_inside; [done | lia].
  - apply length_flag_cells.
  - intros row Hrow. rewrite load_flag_cells, decide_True; [done|]. split.
    + apply elem_of_channel_offsets. by exists row.
    + rewrite Hlen. nia.
  - intros row col Hrow Hcol Hne. apply Hother. intros row' Hrow' Heq.
    apply Hne. apply (f_equal (λ off, off mod cols ds)) in Heq.
    by rewrite !row_major_column in Heq by lia.
  - done.
  - done.
Qed.

(** * The claims on the small registry *)

Lemma dw_alloc_flag_out_uninitialised_witness :
  load (flag_data (dw_alloc_flag_out demo_struct 2).2) 1 = Some Indet.
Proof.
  apply (dw_alloc_flag_out_uninitialised demo_struct 2). lia.
Defined.

Lemma dw_set_flag_out_index_check_witness :
  dw_set_flag_out demo_struct (Ptr 3%positive) 2 = Some (-1, demo_struct) ∧
  (∃ ds', dw_set_flag_out demo_struct (Ptr 3%positive) 1 = Some (0, ds') ∧
          load (flag_data ds') 1 = Some (Ptr 3%positive)) ∧
  dw_set_flag_out demo_struct (Ptr 3%positive) (-1) = None.
Proof.
  split_and!.
  - destruct (dw_set_flag_out_index_check demo_struct (Ptr 3%positive) 2)
      as (Hfail & _).
    apply Hfail. cbn [l_flag demo_struct]. lia.
  - destruct (dw_set_flag_out_index_check demo_struct (Ptr 3%positive) 1)
      as (_ & _ & Hset & _).
    destruct Hset as (ds' & Hcall & Hslot & _);
      [cbn [l_flag demo_struct]; lia | cbn [flag_data demo_struct length]; lia |].
    exists ds'. split; [exact Hcall | exact Hslot].
  - destruct (dw_set_flag_out_index_check demo_struct (Ptr 3%positive) (-1))
      as (_ & _ & _ & Hout).
    apply Hout; [cbn [l_flag demo_struct]; lia | lia].
Defined.


Lemma bootstrap_resample_range_witness :
  ∃ x_out',
    bootstrap_resample Z lcg_rand [] 3 [0%Q; 0%Q; 7%Q] 2 42
    = Some (0, (x_out', rand_after Z lcg_rand 2 42)) ∧
    length x_out' = 3%nat ∧
    (∀ ii, 0 ≤ ii < 2 →
           ∃ v, load x_out' ii = Some (double_of_int v) ∧ 0 ≤ v < 3) ∧
    (∀ ii, 2 ≤ ii → load x_out' ii = load [0%Q; 0%Q; 7%Q] ii).
Proof.
  apply (bootstrap_resample_range Z lcg_rand lcg_rand_nonneg
           [] 3 [0%Q; 0%Q; 7%Q] 2 42).
  - lia.
  - lia.
  - cbn [length]. lia.
Defined.

Lemma dw_even_odd_inactive_product_witness :
  ∃ h', dw_even_odd demo_even_only 0%Q demo_heap = Some (0, h') ∧
        h' !! 1%positive = demo_heap !! 1%positive.
Proof.
  eexists. split; [vm_compute; reflexivity|].
  apply (dw_even_odd_inactive_product demo_even_only 0%Q demo_heap 0 _ 0).
  - by left.
  - reflexivity.
  - vm_compute. reflexivity.
  - intros slot [= <-] _. discriminate.
Defined.

Lemma detectors_only_add_flags_witness :
  ∃ h' buf',
    dw_single_channel demo_struct 1 demo_heap = Some (0, h') ∧
    h' !! 1%positive = Some buf' ∧ length buf' = 6%nat.
Proof.
  exists (<[1%positive := [0; 1; 0; 0; 1; 0]]> demo_heap).
  destruct (detectors_only_add_flags demo_struct 0%Q 1 demo_heap 0
              (<[1%positive := [0; 1; 0; 0; 1; 0]]> demo_heap)
              1%positive (zero_matrix 2 3))
    as (buf' & Hb & Hlen & _).
  - right. vm_compute. reflexivity.
  - reflexivity.
  - exists buf'. split_and!; [vm_compute; reflexivity | exact Hb | exact Hlen].
Defined.

Lemma detectors_idempotent_witness :
  ∃ h', dw_even_odd demo_struct 0%Q demo_heap = Some (0, h') ∧
        dw_even_odd demo_struct 0%Q h' = Some (0, h').
Proof.
  pose proof (detectors_idempotent demo_struct 0%Q 0 demo_heap 0
                (<[1%positive := [1; 0; 1; 1; 0; 1]]>
                   (<[2%positive := [0; 1; 0; 0; 1; 0]]> ∅))) as [Hagain _].
  eexists. split; [exact dw_even_odd_demo|].
  exact (Hagain dw_even_odd_demo).
Defined.

Lemma dw_even_odd_parity_counts_witness :
  ∃ m0 m1,
    dw_even_odd demo_struct 0%Q demo_heap
    = Some (0, <[2%positive := m1]> (<[1%positive := m0]> demo_heap)) ∧
    count_flagged m0 = 4 ∧ count_flagged m1 = 2.
Proof.
  destruct (dw_even_odd_parity_counts demo_struct 0%Q demo_heap
              0 1 1%positive 2%positive)
    as (m0 & m1 & Hcall & _ & _ & Hodd & Heven & _).
  - cbn [rows demo_struct]. lia.
  - cbn [cols demo_struct]. lia.
  - cbn [rows cols demo_struct]. unfold INT_MAX. lia.
  - cbn [cols demo_struct]. unfold INT_MAX. lia.
  - reflexivity.
  - lia.
  - reflexivity.
  - lia.
  - reflexivity.
  - reflexivity.
  - discriminate.
  - reflexivity.
  - reflexivity.
  - exists m0, m1. split_and!; [exact Hcall | exact Hodd | exact Heven].
Defined.

Lemma dw_single_channel_slot_zero_witness :
  ∃ buf',
    dw_single_channel demo_struct 1 demo_heap
    = Some (0, <[1%positive := buf']> demo_heap) ∧
    load buf' (1 * 3 + 1) = Some 1 ∧
    load buf' (1 * 3 + 2) = Some 0.
Proof.
  destruct (dw_single_channel_slot_zero demo_struct 1 demo_heap
              1%positive (zero_matrix 2 3))
    as (buf' & Hcall & _ & Hset & Hkept & _).
  - reflexivity.
  - reflexivity.
  - reflexivity.
  - cbn [rows cols demo_struct]. unfold INT_MAX. lia.
  - cbn [cols demo_struct]. lia.
  - exists buf'. split_and!; [exact Hcall | |].
    + apply (Hset 1). cbn [rows demo_struct]. lia.
    + transitivity (load (zero_matrix 2 3) (1 * 3 + 2)); [|reflexivity].
      apply (Hkept 1 2); cbn [rows cols demo_struct]; lia.
Defined.

(** * Further properties: edges, order of calls, composition *)

(** ** Loops that do not run, loops that fault at once *)

Lemma for_loop_empty {S} start bound step (body : Z → S → option S) s :
  bound ≤ start → for_loop start bound step body s = Some s.
Proof.
  intros Hle. unfold for_loop.
  destruct (Z.to_nat (bound - start)) eqn:Hn; [done | lia].
Qed.

Lemma for_loop_first_fault {S} start bound step (body : Z → S → option S) s :
  start < bound → body start s = None →
  for_loop start bound step body s = None.
Proof.
  intros Hlt Hbody. unfold for_loop.
  destruct (Z.to_nat (bound - start)) eqn:Hn; [lia|].
  cbn [for_steps]. rewrite decide_True by done. by rewrite Hbody.
Qed.




(** X2. [dw_even_odd] changes a buffer only on behalf of a product whose
    table entry is not negative and names a slot that points to the
    buffer.  Every negative entry switches its product off, not -1
    alone. *)
Theorem dw_even_odd_frame ds channel_start h r h' p0 p1 b :
  read_int (flag_product ds) 0 = Some p0 →
  read_int (flag_product ds) 1 = Some p1 →
  dw_even_odd ds channel_start h = Some (r, h') →
  p0 < 0 ∨ read_ptr (flag_data ds) p0 ≠ Ptr b →
  p1 < 0 ∨ read_ptr (flag_data ds) p1 ≠ Ptr b →
  h' !! b = h !! b.
Proof.
  intros Hp0 Hp1 Hcall Hb0 Hb1.
  apply dw_even_odd_Some in Hcall
    as (_ & p0' & p1' & offs0 & offs1 & h1 & Hp0' & Hp1' & Hoffs0 & Hoffs1 & Hrun0 & Hrun1).
  assert (p0' = p0) as -> by congruence. assert (p1' = p1) as -> by congruence.
  unfold product_stores in Hoffs0, Hoffs1.
  transitivity (h1 !! b).
  - eapply flag_run_frame; [exact Hrun1|].
    destruct Hb1 as [Hoff|Hne]; [left | by right].
    rewrite decide_False in Hoffs1 by lia. by injection Hoffs1 as <-.
  - eapply flag_run_frame; [exact Hrun0|].
    destruct Hb0 as [Hoff|Hne]; [left | by right].
    rewrite decide_False in Hoffs0 by lia. by injection Hoffs0 as <-.
Qed.

(** ** The parity passes on matrices of any contents *)

Lemma dw_even_odd_both_active ds channel_start h p0 p1 b0 b1 buf0 buf1 :
  rows ds * cols ds ≤ INT_MAX → cols ds < INT_MAX →
  read_int (flag_product ds) 0 = Some p0 → p0 > -1 →
  read_int (flag_product ds) 1 = Some p1 → p1 > -1 →
  read_ptr (flag_data ds) p0 = Ptr b0 →
  read_ptr (flag_data ds) p1 = Ptr b1 →
  h !! b0 = Some buf0 →
  <[b0 := flag_cells buf0 (parity_offsets ds 0)]> h !! b1 = Some buf1 →
  rows ds * cols ds ≤ Z.of_nat (length buf0) →
  rows ds * cols ds ≤ Z.of_nat (length buf1) →
  dw_even_odd ds channel_start h
  = Some (0, <[b1 := flag_cells buf1 (parity_offsets ds 1)]>
               (<[b0 := flag_cells buf0 (parity_offsets ds 0)]> h)).
Proof.
  intros Hcells Hwide Hp0 Hact0 Hp1 Hact1 Hb0 Hb1 Hbuf0 Hbuf1 Hlen0 Hlen1.
  apply dw_even_odd_Some. split; [done|].
  exists p0, p1, (parity_offsets ds 0), (parity_offsets ds 1),
    (<[b0 := flag_cells buf0 (parity_offsets ds 0)]> h).
  unfold product_stores. rewrite !decide_True by done.
  split_and!; [done | done | by apply parity_stores_Some..| |];
    (apply flag_run; [done | done | by apply parity_stores_inside]).
Qed.

Lemma load_parity_cells ds first buf row col :
  0 ≤ first → 0 ≤ row < rows ds → 0 ≤ col < cols ds →
  rows ds * cols ds ≤ Z.of_nat (length buf) →
  load (flag_cells buf (parity_offsets ds first)) (row * cols ds + col)
  = if decide (first ≤ col ∧ (col - first) mod 2 = 0) then Some 1
    else load buf (row * cols ds + col).
Proof.
  intros Hfirst Hrow Hcol Hlen.
  assert (0 ≤ row * cols ds + col < rows ds * cols ds) as Hoff by nia.
  pose proof (parity_offsets_column ds first (row * cols ds + col)) as Hin.
  rewrite row_major_column in Hin by done.
  rewrite load_flag_cells.
  destruct (decide (first ≤ col ∧ (col - first) mod 2 = 0)) as [Hpar|Hpar].
  - rewrite decide_True; [done|]. split; [apply Hin; [lia..|done] | lia].
  - rewrite decide_False; [done|]. intros [Hoffs _]. apply Hpar, Hin; [lia..|done].
Qed.

Lemma load_parity_cells_outside ds first buf off :
  0 ≤ first → rows ds * cols ds ≤ off →
  load (flag_cells buf (parity_offsets ds first)) off = load buf off.
Proof.
  intros Hfirst Hoff. rewrite load_flag_cells, decide_False; [done|].
  intros [Hin%parity_offsets_in_matrix _]; lia.
Qed.

Lemma parity_zero_even col :
  0 ≤ col → (0 ≤ col ∧ (col - 0) mod 2 = 0) ↔ Z.even col = true.
Proof.
  intros Hcol. rewrite Z.sub_0_r, Zmod_even.
  destruct (Z.even col); split; [done | by split | intros [_ ?]; lia | done].
Qed.

Lemma parity_one_odd col :
  0 ≤ col → (1 ≤ col ∧ (col - 1) mod 2 = 0) ↔ Z.odd col = true.
Proof.
  intros Hcol. pose proof (Zmod_odd col) as Hodd.
  destruct (Z.odd col); split; try done.
  - intros _. split; Z.to_euclidean_division_equations; lia.
  - intros [_ Hmod]. Z.to_euclidean_division_equations; lia.
Qed.

(** X3. [dw_even_odd] with both products active, their slots pointing to
    two different buffers of at least [rows * cols] cells, whatever these
    hold: it returns 0; in the matrix of product 0 the cells of the
    columns 0, 2, 4, ... hold 1 and every other cell holds what it held;
    in the matrix of product 1 the same for the columns 1, 3, 5, ...  No
    cell is cleared and no cell past the matrix is touched.  (The offsets
    are [int]s: [rows * cols <= INT_MAX], [cols < INT_MAX].) *)
Theorem dw_even_odd_any_contents ds channel_start h p0 p1 b0 b1 buf0 buf1 :
  rows ds * cols ds ≤ INT_MAX → cols ds < INT_MAX →
  read_int (flag_product ds) 0 = Some p0 → p0 > -1 →
  read_int (flag_product ds) 1 = Some p1 → p1 > -1 →
  read_ptr (flag_data ds) p0 = Ptr b0 →
  read_ptr (flag_data ds) p1 = Ptr b1 →
  b0 ≠ b1 →
  h !! b0 = Some buf0 → h !! b1 = Some buf1 →
  rows ds * cols ds ≤ Z.of_nat (length buf0) →
  rows ds * cols ds ≤ Z.of_nat (length buf1) →
  ∃ m0 m1,
    dw_even_odd ds channel_start h = Some (0, <[b1 := m1]> (<[b0 := m0]> h)) ∧
    length m0 = length buf0 ∧ length m1 = length buf1 ∧
    (∀ row col, 0 ≤ row < rows ds → 0 ≤ col < cols ds →
       load m0 (row * cols ds + col)
       = (if Z.even col then Some 1 else load buf0 (row * cols ds + col)) ∧
       load m1 (row * cols ds + col)
       = (if Z.odd col then Some 1 else load buf1 (row * cols ds + col))) ∧
    (∀ off, rows ds * cols ds ≤ off →
       load m0 off = load buf0 off ∧ load m1 off = load buf1 off).
Proof.
  intros Hcells Hwide Hp0 Hact0 Hp1 Hact1 Hb0 Hb1 Hne Hbuf0 Hbuf1 Hlen0 Hlen1.
  exists (flag_cells buf0 (parity_offsets ds 0)), (flag_cells buf1 (parity_offsets ds 1)).
  split_and!.
  - apply (dw_even_odd_both_active ds channel_start h p0 p1); try done.
    by rewrite lookup_insert_ne.
  - apply length_flag_cells.
  - apply length_flag_cells.
  - intros row col Hrow Hcol. rewrite !load_parity_cells by (done || lia).
    pose proof (parity_zero_even col) as Heven.
    pose proof (parity_one_odd col) as Hodd. split.
    + destruct (Z.even col).
      * rewrite decide_True; [done | apply Heven; [lia | done]].
      * rewrite decide_False; [done|]. intros H0. apply Heven in H0; [done | lia].
    + destruct (Z.odd col).
      * rewrite decide_True; [done | apply Hodd; [lia | done]].
      * rewrite decide_False; [done|]. intros H1. apply Hodd in H1; [done | lia].
  - intros off Hoff. by rewrite !load_parity_cells_outside.
Qed.

(** X4. When the slots of the two active products point to the same
    matrix (the same slot twice, or two slots that hold one pointer), the
    odd and the even pass both store into it: after [dw_even_odd] every
    one of its [rows * cols] cells holds 1. *)
Theorem dw_even_odd_shared_destination ds channel_start h p0 p1 b buf :
  0 ≤ cols ds → rows ds * cols ds ≤ INT_MAX → cols ds < INT_MAX →
  read_int (flag_product ds) 0 = Some p0 → p0 > -1 →
  read_int (flag_product ds) 1 = Some p1 → p1 > -1 →
  read_ptr (flag_data ds) p0 = Ptr b →
  read_ptr (flag_data ds) p1 = Ptr b →
  h !! b = Some buf →
  length buf = Z.to_nat (rows ds * cols ds) →
  dw_even_odd ds channel_start h = Some (0, <[b := replicate (length buf) 1]> h).
Proof.
  intros Hcols Hcells Hwide Hp0 Hact0 Hp1 Hact1 Hb0 Hb1 Hbuf Hlen.
  rewrite (dw_even_odd_both_active ds channel_start h p0 p1 b b buf
             (flag_cells buf (parity_offsets ds 0)))
    by (done || apply lookup_insert_eq || rewrite ?length_flag_cells; lia).
  rewrite insert_insert_eq. do 3 f_equal.
  apply list_eq. intros n.
  rewrite !lookup_flag_cells, length_flag_cells.
  destruct (decide (n < length buf)%nat) as [Hn|Hn].
  - rewrite lookup_replicate_2 by done.
    assert (0 ≤ Z.of_nat n < rows ds * cols ds) as Hoff by lia.
    assert (0 < cols ds) as Hpos.
    { destruct (decide (cols ds = 0)) as [Hz|]; [rewrite Hz in Hoff|]; lia. }
    pose proof (parity_offsets_column ds 0 (Z.of_nat n)) as Heven.
    pose proof (parity_offsets_column ds 1 (Z.of_nat n)) as Hodd.
    pose proof (Z.mod_pos_bound (Z.of_nat n) (cols ds) Hpos) as Hcol.
    destruct (decide (Z.of_nat n ∈ parity_offsets ds 1 ∧ (n < length buf)%nat))
      as [|Hnot1]; [done|].
    rewrite decide_True; [done|]. split; [|done].
    apply Heven; [lia..|].
    destruct (decide (Z.of_nat n mod cols ds mod 2 = 0)) as [Hmod|Hmod].
    + split; [lia | by rewrite Z.sub_0_r].
    + exfalso. apply Hnot1. split; [|done]. apply Hodd; [lia..|].
      revert Hmod. generalize (Z.of_nat n mod cols ds) Hcol. intros c Hc Hmod.
      split; Z.to_euclidean_division_equations; lia.
  - rewrite !decide_False by (intros [_ ?]; lia).
    transitivity (@None Z); [apply lookup_ge_None; lia|].
    symmetry. apply lookup_replicate_None. lia.
Qed.

(** ** The order of the stores *)

Lemma flag_cells_same_cells buf offs offs' :
  (∀ off, off ∈ offs ↔ off ∈ offs') → flag_cells buf offs = flag_cells buf offs'.
Proof.
  intros Hsame. apply list_eq. intros n. rewrite !lookup_flag_cells.
  destruct (decide (Z.of_nat n ∈ offs ∧ (n < length buf)%nat)) as [[Hin Hlen]|Hnin].
  - rewrite decide_True; [done|]. split; [by apply Hsame | done].
  - rewrite decide_False; [done|]. intros [Hin Hlen].
    apply Hnin. split; [by apply Hsame | done].
Qed.

Lemma flag_cells_app buf offs offs' :
  flag_cells buf (offs ++ offs') = flag_cells (flag_cells buf offs) offs'.
Proof. apply foldl_app. Qed.

Lemma flag_cells_comm buf offs offs' :
  flag_cells (flag_cells buf offs) offs' = flag_cells (flag_cells buf offs') offs.
Proof.
  rewrite <- !flag_cells_app. apply flag_cells_same_cells.
  intros off. rewrite !elem_of_app. tauto.
Qed.

(** Two runs of stores, one after the other, can be swapped. *)
Lemma flag_runs_commute ds slot1 offs1 slot2 offs2 h h1 h2 :
  iterM (write_flag ds slot1) offs1 h = Some h1 →
  iterM (write_flag ds slot2) offs2 h1 = Some h2 →
  ∃ h1', iterM (write_flag ds slot2) offs2 h = Some h1' ∧
         iterM (write_flag ds slot1) offs1 h1' = Some h2.
Proof.
  intros [[-> ->]|(b1 & buf1 & Hs1 & Hb1 & Hin1 & ->)]%flag_run_Some Hrun2.
  { exists h2. by split. }
  apply flag_run_Some in Hrun2 as [[-> ->]|(b2 & buf2 & Hs2 & Hb2 & Hin2 & ->)].
  { exists h. split; [done|]. by apply flag_run. }
  destruct (decide (b2 = b1)) as [->|Hne].
  - rewrite lookup_insert_eq in Hb2. injection Hb2 as <-.
    assert (stores_inside buf1 offs2) as Hin2'.
    { apply (stores_inside_length (flag_cells buf1 offs1)); [|done].
      symmetry. apply length_flag_cells. }
    exists (<[b1 := flag_cells buf1 offs2]> h). split; [by apply flag_run|].
    erewrite flag_run; [|done|apply lookup_insert_eq|].
    + by rewrite !insert_insert_eq, flag_cells_comm.
    + by apply (stores_inside_length buf1); [apply length_flag_cells|].
  - rewrite lookup_insert_ne in Hb2 by done.
    exists (<[b2 := flag_cells buf2 offs2]> h). split; [by apply flag_run|].
    erewrite flag_run; [|done|by rewrite lookup_insert_ne|done].
    by rewrite insert_insert_ne.
Qed.

(** X5. The detectors can be called in either order: when [dw_even_odd]
    and then [dw_single_channel] have returned, the two calls in the
    other order return the same statuses and leave the same buffers; the
    same holds from the other order, and for two calls of
    [dw_single_channel] on two channels. *)
Theorem detectors_commute ds channel_start channel channel' h r1 h1 r2 h2 :
  (dw_even_odd ds channel_start h = Some (r1, h1) →
   dw_single_channel ds channel h1 = Some (r2, h2) →
   ∃ h1', dw_single_channel ds channel h = Some (r2, h1') ∧
          dw_even_odd ds channel_start h1' = Some (r1, h2)) ∧
  (dw_single_channel ds channel h = Some (r1, h1) →
   dw_even_odd ds channel_start h1 = Some (r2, h2) →
   ∃ h1', dw_even_odd ds channel_start h = Some (r2, h1') ∧
          dw_single_channel ds channel h1' = Some (r1, h2)) ∧
  (dw_single_channel ds channel h = Some (r1, h1) →
   dw_single_channel ds channel' h1 = Some (r2, h2) →
   ∃ h1', dw_single_channel ds channel' h = Some (r2, h1') ∧
          dw_single_channel ds channel h1' = Some (r1, h2)).
Proof.
  split_and!.
  - intros (-> & p0 & p1 & offs0 & offs1 & ha & Hp0 & Hp1 & Hoffs0 & Hoffs1 & Hrun0 & Hrun1)
      %dw_even_odd_Some (-> & offs & Hoffs & Hrun)%dw_single_channel_Some.
    destruct (flag_runs_commute _ _ _ _ _ _ _ _ Hrun1 Hrun) as (hb & Hrun' & Hrun1').
    destruct (flag_runs_commute _ _ _ _ _ _ _ _ Hrun0 Hrun') as (hc & Hrun'' & Hrun0').
    exists hc. split.
    + apply dw_single_channel_Some. split; [done|]. by exists offs.
    + apply dw_even_odd_Some. split; [done|]. by exists p0, p1, offs0, offs1, hb.
  - intros (-> & offs & Hoffs & Hrun)%dw_single_channel_Some
      (-> & p0 & p1 & offs0 & offs1 & ha & Hp0 & Hp1 & Hoffs0 & Hoffs1 & Hrun0 & Hrun1)
      %dw_even_odd_Some.
    destruct (flag_runs_commute _ _ _ _ _ _ _ _ Hrun Hrun0) as (hb & Hrun0' & Hrun').
    destruct (flag_runs_commute _ _ _ _ _ _ _ _ Hrun' Hrun1) as (hc & Hrun1' & Hrun'').
    exists hc. split.
    + apply dw_even_odd_Some. split; [done|]. by exists p0, p1, offs0, offs1, hb.
    + apply dw_single_channel_Some. split; [done|]. by exists offs.
  - intros (-> & offs & Hoffs & Hrun)%dw_single_channel_Some
      (-> & offs' & Hoffs' & Hrun')%dw_single_channel_Some.
    destruct (flag_runs_commute _ _ _ _ _ _ _ _ Hrun Hrun') as (hb & Hrunb & Hrunb').
    exists hb. split; apply dw_single_channel_Some; (split; [done|]).
    + by exists offs'.
    + by exists offs.
Qed.

(** A run of stores through one slot, in any order. *)
Lemma flag_run_perm_Some ds slot offs offs' h h' :
  offs' ≡ₚ offs →
  iterM (write_flag ds slot) offs h = Some h' →
  iterM (write_flag ds slot) offs' h = Some h'.
Proof.
  intros Hperm [[-> ->]|(b & buf & Hs & Hb & Hin & ->)]%flag_run_Some.
  - by apply Permutation_nil_r in Hperm as ->.
  - rewrite (flag_run ds slot b buf); [|done|done|].
    + do 2 f_equal. apply flag_cells_same_cells. intros off. by rewrite Hperm.
    + intros off Hoff. apply Hin. by rewrite <- Hperm.
Qed.

Lemma flag_run_perm ds slot offs offs' h :
  offs' ≡ₚ offs →
  iterM (write_flag ds slot) offs' h = iterM (write_flag ds slot) offs h.
Proof.
  intros Hperm.
  destruct (iterM (write_flag ds slot) offs h) as [h'|] eqn:Hrun.
  - by apply (flag_run_perm_Some ds slot offs).
  - destruct (iterM (write_flag ds slot) offs' h) as [h'|] eqn:Hrun'; [|done].
    apply (flag_run_perm_Some ds slot offs' offs) in Hrun'; [congruence | done].
Qed.

Lemma loop_indices_bounds n i bound step x :
  0 < step → x ∈ loop_indices n i bound step → i ≤ x < bound.
Proof.
  intros Hstep. revert i. induction n as [|n IH]; intros i; simpl.
  - by intros ?%elem_of_nil.
  - case_decide; [|by intros ?%elem_of_nil].
    intros [->|Hin%IH]%elem_of_cons; lia.
Qed.

Lemma NoDup_loop_indices n i bound step :
  0 < step → NoDup (loop_indices n i bound step).
Proof.
  intros Hstep. revert i. induction n as [|n IH]; intros i; simpl.
  - constructor.
  - case_decide; constructor; [|apply IH].
    intros Hin%loop_indices_bounds; lia.
Qed.

Lemma loop_counters_incr2_Some n i bound l :
  loop_counters n i bound incr2 = Some l → l = loop_indices n i bound 2.
Proof.
  revert i l. induction n as [|n IH]; intros i l; cbn [loop_counters loop_indices].
  - by intros [= <-].
  - case_decide; [|by intros [= <-]].
    change (incr2 i) with (int_result (i + 2)). unfold int_result.
    case_decide; [|done]. step_bind.
    destruct (loop_counters n (i + 2) bound incr2) as [l'|] eqn:Hl; [|done].
    step_bind. intros [= <-]. f_equal. by apply IH.
Qed.

Lemma cell_offset_value row cols ii off :
  cell_offset row cols ii = Some off → off = row * cols + ii.
Proof.
  unfold cell_offset, int_mul, int_add, int_result.
  case_decide; [|done]. step_bind. case_decide; [|done]. by intros [= <-].
Qed.

Lemma mapM_Some_fmap {I J} (f : I → option J) (g : I → J) l k :
  (∀ i j, f i = Some j → j = g i) → mapM f l = Some k → k = g <$> l.
Proof.
  intros Hfg Hk%mapM_Some.
  induction Hk as [|i j l k Hij _ IH]; [done|].
  cbn [fmap list_fmap]. f_equal; [by apply Hfg | exact IH].
Qed.

(** The offsets that a parity pass stores to, when it computes them all,
    are the row-major ones. *)
Lemma parity_stores_offsets ds first offs :
  parity_stores ds first = Some offs → offs = parity_offsets ds first.
Proof.
  unfold parity_stores, parity_offsets.
  destruct (counters first (cols ds) incr2) as [columns|] eqn:Hcolumns; [|done].
  apply loop_counters_incr2_Some in Hcolumns as ->. step_bind.
  apply mapM_Some_fmap. intros [ii row] off. apply cell_offset_value.
Qed.

Lemma NoDup_parity_offsets ds first : 0 ≤ first → NoDup (parity_offsets ds first).
Proof.
  intros Hfirst. unfold parity_offsets.
  apply NoDup_fmap_2_strong.
  - intros [ii row] [ii' row'] [Hii Hrow]%elem_of_column_cells
      [Hii' Hrow']%elem_of_column_cells Heq.
    apply loop_indices_bounds in Hii, Hii'; [|lia..]. cbn [fst snd] in Heq.
    assert (row = row') as -> by nia. f_equal. lia.
  - unfold column_cells. apply NoDup_bind.
    + intros ii ii' [c row] _ _ (? & [= -> ->] & _)%list_elem_of_fmap
        (? & [= -> ->] & _)%list_elem_of_fmap. done.
    + intros ii _. apply NoDup_fmap_2; [by intros ?? [= ->] | apply NoDup_seqZ].
    + by apply NoDup_loop_indices.
Qed.

(** X6. The stores of a parity pass of [dw_even_odd] go to pairwise
    different cells, and the buffers they leave do not depend on their
    order: carried out in any order, they leave what the pass leaves
    when it runs its columns one after the other.  The distribution of
    the loop over [ii] among OpenMP threads therefore does not show in
    the result, and no two threads store to one cell. *)
Theorem parity_pass_any_order ds k first slot offs h :
  0 ≤ first →
  read_int (flag_product ds) k = Some slot →
  parity_stores ds first = Some offs →
  NoDup offs ∧
  ∀ offs', offs' ≡ₚ offs →
    iterM (write_flag ds slot) offs' h = parity_pass ds k first h.
Proof.
  intros Hfirst Hslot Hoffs. split.
  - apply parity_stores_offsets in Hoffs as ->. by apply NoDup_parity_offsets.
  - intros offs' Hperm.
    rewrite (parity_pass_run ds k first slot) by done. rewrite Hoffs. step_bind.
    by apply flag_run_perm.
Qed.

(** ** What the detectors do not check *)



Lemma flag_run_needs_buffer ds slot offs h h' :
  offs ≠ [] →
  (∀ b, read_ptr (flag_data ds) slot = Ptr b → h !! b = None) →
  iterM (write_flag ds slot) offs h ≠ Some h'.
Proof.
  intros Hoffs Hslot [[-> _]|(b & buf & Hb & Hbuf & _)]%flag_run_Some; [done|].
  apply Hslot in Hb. congruence.
Qed.

(** X8. The detectors use a slot of the registry without checking what
    it holds.  When there is a cell to flag and the slot (slot 0 for
    [dw_single_channel]; for [dw_even_odd] the slot that a product entry
    above -1 names, which is not compared with [l_flag]) holds no pointer
    to a buffer, because it was never set, is null, lies outside the slot
    array or points to no buffer, the call stores through an invalid
    pointer: it has no result. *)
Theorem detectors_need_set_slots ds channel_start channel h :
  (0 < rows ds →
   (∀ b, read_ptr (flag_data ds) 0 = Ptr b → h !! b = None) →
   dw_single_channel ds channel h = None) ∧
  (∀ k p, k = 0 ∨ k = 1 → 0 < rows ds → k < cols ds →
     read_int (flag_product ds) k = Some p → p > -1 →
     (∀ b, read_ptr (flag_data ds) p = Ptr b → h !! b = None) →
     dw_even_odd ds channel_start h = None).
Proof.
  split.
  - intros Hrows Hslot.
    destruct (dw_single_channel ds channel h) as [[r h']|] eqn:Hcall; [|done].
    apply dw_single_channel_Some in Hcall as (_ & offs & Hoffs & Hrun).
    exfalso. revert Hrun. apply flag_run_needs_buffer; [|done].
    apply length_mapM in Hoffs. rewrite length_seqZ in Hoffs.
    intros ->. cbn [length] in Hoffs. lia.
  - intros k p Hk Hrows Hcols Hp Hact Hslot.
    destruct (dw_even_odd ds channel_start h) as [[r h']|] eqn:Hcall; [|done].
    apply dw_even_odd_Some in Hcall
      as (_ & p0 & p1 & offs0 & offs1 & h1 & Hp0 & Hp1 & Hoffs0 & Hoffs1 & Hrun0 & Hrun1).
    exfalso. unfold product_stores in Hoffs0, Hoffs1.
    destruct Hk as [->| ->].
    + assert (p0 = p) as -> by congruence.
      rewrite decide_True in Hoffs0 by done.
      apply parity_stores_offsets in Hoffs0 as ->.
      revert Hrun0. apply flag_run_needs_buffer; [|done].
      assert (0 ∈ parity_offsets ds 0) as Hin.
      { apply elem_of_parity_offsets. exists 0, 0. split_and!; (lia || done). }
      intros Hnil. rewrite Hnil in Hin. by apply elem_of_nil in Hin.
    + assert (p1 = p) as -> by congruence.
      rewrite decide_True in Hoffs1 by done.
      apply parity_stores_offsets in Hoffs1 as ->.
      revert Hrun1. apply flag_run_needs_buffer.
      * assert (1 ∈ parity_offsets ds 1) as Hin.
        { apply elem_of_parity_offsets. exists 1, 0. split_and!; (lia || done). }
        intros Hnil. rewrite Hnil in Hin. by apply elem_of_nil in Hin.
      * intros b Hb. apply Hslot in Hb.
        pose proof (flag_run_flags_added _ _ _ _ _ Hrun0 b) as Hadd.
        by rewrite Hb in Hadd.
Qed.

(** ** The resampler at the edges of its lengths *)

Section bootstrap_edges.
Variable rng : Type.
Variable rand : rng → Z * rng.

(** X9. [bootstrap_resample] evaluates [rand() % len_in] once for each
    of the [len_out] cells and checks neither length.  For
    [len_out <= 0] it returns 0, draws no number and leaves [x_out] as it
    is, whatever [len_in] is; for [len_in = 0] and [len_out > 0] the first
    remainder is a division by zero: the call has no result. *)
Theorem bootstrap_resample_edge_lengths x_in len_in x_out len_out g :
  (len_out ≤ 0 →
   bootstrap_resample rng rand x_in len_in x_out len_out g = Some (0, (x_out, g))) ∧
  (0 < len_out → len_in = 0 →
   bootstrap_resample rng rand x_in len_in x_out len_out g = None).
Proof.
  unfold bootstrap_resample. split.
  - intros Hout. by rewrite for_loop_empty.
  - intros Hout ->. rewrite for_loop_first_fault; [done..|].
    by destruct (rand g).
Qed.

Lemma resample_loop_draws (len_in : Z) (x_out : list double) (g : rng) (k : nat) :
  len_in ≠ 0 → (k ≤ length x_out)%nat →
  ∃ x_out',
    iterM (λ ii '(x_out, g),
             let '(r, g') := rand g in
             v ← c_rem r len_in;
             x_out' ← assign x_out ii (double_of_int v);
             Some (x_out', g'))
          (seqZ 0 (Z.of_nat k)) (x_out, g)
    = Some (x_out', rand_after rng rand k g) ∧
    length x_out' = length x_out ∧
    ∀ i : nat, (i < k)%nat → (i < length x_out)%nat →
      load x_out' (Z.of_nat i)
      = Some (double_of_int (Z.rem (rand (rand_after rng rand i g)).1 len_in)).
Proof.
  intros Hlen. induction k as [|k IH]; intros Hroom.
  - exists x_out. split_and!; [reflexivity | done | lia].
  - destruct IH as (x' & Hrun & Hlen' & Hdrawn); [lia|].
    rewrite seqZ_S, iterM_app, Hrun. cbn [mbind option_bind iterM].
    rewrite Z.add_0_l.
    change (rand_after rng rand (S k) g) with (rand (rand_after rng rand k g)).2.
    destruct (rand (rand_after rng rand k g)) as [r g'] eqn:Hrand.
    unfold c_rem. rewrite decide_False by done. step_bind.
    rewrite assign_inside by lia. step_bind.
    eexists. split_and!; [done | by rewrite length_store |].
    intros i Hi Hin. destruct (decide (i = k)) as [->|Hne].
    + rewrite load_store_eq by lia. by rewrite Hrand.
    + rewrite load_store_ne by lia. apply Hdrawn; lia.
Qed.

Lemma bootstrap_resample_values x_in len_in x_out len_out g :
  len_in ≠ 0 → 0 ≤ len_out ≤ Z.of_nat (length x_out) →
  ∃ x_out',
    bootstrap_resample rng rand x_in len_in x_out len_out g
    = Some (0, (x_out', rand_after rng rand (Z.to_nat len_out) g)) ∧
    length x_out' = length x_out ∧
    ∀ ii, 0 ≤ ii < len_out →
      load x_out' ii
      = Some (double_of_int
                (Z.rem (rand (rand_after rng rand (Z.to_nat ii) g)).1 len_in)).
Proof.
  intros Hin Hout. unfold bootstrap_resample.
  rewrite for_loop_counters, counters_incr. step_bind.
  destruct (resample_loop_draws len_in x_out g (Z.to_nat len_out))
    as (x' & Hrun & Hlen & Hdrawn); [done | lia |].
  rewrite Z2Nat.id in Hrun by lia. rewrite Hrun. exists x'.
  split_and!; [done | done |].
  intros ii Hii. rewrite <- (Z2Nat.id ii) at 1 by lia. apply Hdrawn; lia.
Qed.

Lemma rand_after_add (a b : nat) (g : rng) :
  rand_after rng rand a (rand_after rng rand b g) = rand_after rng rand (a + b) g.
Proof. unfold rand_after. symmetry. apply Nat.iter_add. Qed.

(** X10. A second call of [bootstrap_resample] goes on in the sequence
    of [rand()]: on the array that the first call left, it replaces the
    first sample by the remainders of the next [len_out] numbers, and
    [rand()] has then been called [2 * len_out] times. *)
Theorem bootstrap_resample_twice x_in len_in x_out len_out g :
  len_in ≠ 0 → 0 ≤ len_out ≤ Z.of_nat (length x_out) →
  ∃ x1 x2,
    bootstrap_resample rng rand x_in len_in x_out len_out g
    = Some (0, (x1, rand_after rng rand (Z.to_nat len_out) g)) ∧
    bootstrap_resample rng rand x_in len_in x1 len_out
      (rand_after rng rand (Z.to_nat len_out) g)
    = Some (0, (x2, rand_after rng rand (Z.to_nat len_out + Z.to_nat len_out) g)) ∧
    ∀ ii, 0 ≤ ii < len_out →
      load x2 ii
      = Some (double_of_int
                (Z.rem (rand (rand_after rng rand
                                (Z.to_nat ii + Z.to_nat len_out) g)).1 len_in)).
Proof.
  intros Hin Hout.
  destruct (bootstrap_resample_values x_in len_in x_out len_out g)
    as (x1 & Hfirst & Hlen1 & _); [done..|].
  destruct (bootstrap_resample_values x_in len_in x1 len_out
              (rand_after rng rand (Z.to_nat len_out) g))
    as (x2 & Hsecond & _ & Hcells); [done | by rewrite Hlen1 |].
  rewrite rand_after_add in Hsecond.
  exists x1, x2. split_and!; [done | done |].
  intros ii Hii. rewrite (Hcells ii Hii). by rewrite rand_after_add.
Qed.

Hypothesis rand_nonneg : ∀ g, 0 ≤ (rand g).1.

(** X11. What [bootstrap_resample] writes is fixed by the numbers that
    [rand()] returns and by [len_in] alone: cell [ii] of [x_out] holds the
    remainder of the [ii]-th number by [len_in], and the array [x_in] is
    not read.  This holds for every [len_in] but 0, the negative ones
    included, for which the values are in the range [0, -len_in). *)
Theorem bootstrap_resample_draws x_in len_in x_out len_out g :
  len_in ≠ 0 → 0 ≤ len_out ≤ Z.of_nat (length x_out) →
  ∃ x_out',
    bootstrap_resample rng rand x_in len_in x_out len_out g
    = Some (0, (x_out', rand_after rng rand (Z.to_nat len_out) g)) ∧
    ∀ ii, 0 ≤ ii < len_out →
      load x_out' ii
      = Some (double_of_int
                (Z.rem (rand (rand_after rng rand (Z.to_nat ii) g)).1 len_in)) ∧
      0 ≤ Z.rem (rand (rand_after rng rand (Z.to_nat ii) g)).1 len_in
        < Z.abs len_in.
Proof.
  intros Hin Hout.
  destruct (bootstrap_resample_values x_in len_in x_out len_out g)
    as (x' & Hcall & _ & Hdrawn); [done..|].
  exists x'. split; [done|].
  intros ii Hii. split.
  - by apply Hdrawn.
  - pose proof (rand_nonneg (rand_after rng rand (Z.to_nat ii) g)) as Hr.
    pose proof (Z.rem_nonneg _ len_in Hin Hr).
    pose proof (Z.rem_bound_abs (rand (rand_after rng rand (Z.to_nat ii) g)).1
                  len_in Hin).
    lia.
Qed.

End bootstrap_edges.

(** ** The registry between the setup calls *)

Lemma store_store_eq {A} (a : list A) i (v w : A) :
  store (store a i v) i w = store a i w.
Proof. unfold store. case_decide; [apply list_insert_insert_eq | done]. Qed.

Lemma store_store_ne {A} (a : list A) i j (v w : A) :
  i ≠ j → store (store a i v) j w = store (store a j w) i v.
Proof.
  intros Hne. unfold store. repeat case_decide; try done.
  apply list_insert_insert_ne. lia.
Qed.

Lemma dw_set_flag_out_allocated ds p i :
  slots_allocated ds → 0 ≤ i →
  dw_set_flag_out ds p i
  = Some (if decide (i >= l_flag ds) then (-1, ds)
          else (0, Dw (data ds) (rows ds) (cols ds) (store (flag_data ds) i p)
                      (l_flag ds) (flag_data_ind ds) (flag_product ds)
                      (l_flag_prod ds))).
Proof.
  unfold slots_allocated, dw_set_flag_out. intros Hsize Hi.
  case_decide; [done|]. rewrite assign_inside by lia. done.
Qed.

Lemma slots_allocated_store ds p i :
  slots_allocated ds →
  slots_allocated (Dw (data ds) (rows ds) (cols ds) (store (flag_data ds) i p)
                      (l_flag ds) (flag_data_ind ds) (flag_product ds)
                      (l_flag_prod ds)).
Proof. unfold slots_allocated. cbn [flag_data l_flag]. by rewrite length_store. Qed.


(** X13. On a registry whose slot array has its [l_flag] cells, calls
    of [dw_set_flag_out] on two different indices from 0 on can be
    swapped, and of two calls on one index the later one counts: the
    calls return, and the registry that they leave is the same.  (An
    index that is accepted is then inside the array, and one that is not
    leaves the registry as it is.) *)
Theorem dw_set_flag_out_order ds p q i j :
  slots_allocated ds → 0 ≤ i → 0 ≤ j →
  (i ≠ j →
   ∃ ds2,
     (ds1 ← after_set_flag_out ds p i; after_set_flag_out ds1 q j) = Some ds2 ∧
     (ds1 ← after_set_flag_out ds q j; after_set_flag_out ds1 p i) = Some ds2) ∧
  (∃ ds2,
     (ds1 ← after_set_flag_out ds p i; after_set_flag_out ds1 q i) = Some ds2 ∧
     after_set_flag_out ds q i = Some ds2).
Proof.
  intros Hsize Hi Hj. unfold after_set_flag_out.
  pose proof (slots_allocated_store ds) as Hkept.
  split.
  - intros Hne. rewrite !(dw_set_flag_out_allocated ds) by done.
    destruct (decide (i >= l_flag ds)) as [Hi'|Hi'],
             (decide (j >= l_flag ds)) as [Hj'|Hj'];
      cbn [fmap option_fmap option_map mbind option_bind snd];
      rewrite !dw_set_flag_out_allocated by (done || by apply Hkept);
      cbn [l_flag flag_data data rows cols flag_data_ind flag_product l_flag_prod];
      rewrite ?(decide_True (P := i >= l_flag ds)) by done;
      rewrite ?(decide_True (P := j >= l_flag ds)) by done;
      rewrite ?(decide_False (P := i >= l_flag ds)) by done;
      rewrite ?(decide_False (P := j >= l_flag ds)) by done;
      cbn [fmap option_fmap option_map snd];
      eexists; (split; [done|]); try done.
    by rewrite store_store_ne.
  - rewrite !(dw_set_flag_out_allocated ds) by done.
    destruct (decide (i >= l_flag ds)) as [Hi'|Hi'];
      cbn [fmap option_fmap option_map mbind option_bind snd];
      rewrite !dw_set_flag_out_allocated by (done || by apply Hkept);
      cbn [l_flag flag_data data rows cols flag_data_ind flag_product l_flag_prod].
    + rewrite decide_True by done. by eexists.
    + rewrite decide_False by done.
      cbn [fmap option_fmap option_map snd].
      eexists. split; [done|]. by rewrite store_store_eq.
Qed.

Lemma set_flags_from_prefix d r c fdi fp lfp (pre ps : list pointer) :
  set_flags_from
    (Dw d r c (pre ++ replicate (length ps) Indet)
        (Z.of_nat (length pre + length ps)) fdi fp lfp)
    (Z.of_nat (length pre)) ps
  = Some (replicate (length ps) 0,
          Dw d r c (pre ++ ps) (Z.of_nat (length pre + length ps)) fdi fp lfp).
Proof.
  revert pre. induction ps as [|p ps IH]; intros pre.
  - done.
  - cbn [set_flags_from length replicate]. unfold dw_set_flag_out.
    cbn [l_flag flag_data data rows cols flag_data_ind flag_product l_flag_prod].
    rewrite decide_False by lia.
    rewrite assign_inside
      by (rewrite length_app; cbn [length]; rewrite length_replicate; lia).
    assert (store (pre ++ Indet :: replicate (length ps) Indet)
                  (Z.of_nat (length pre)) p
            = (pre ++ [p]) ++ replicate (length ps) Indet) as ->.
    { unfold store. rewrite decide_True by lia. rewrite Nat2Z.id.
      rewrite insert_app_r_alt, Nat.sub_diag by lia.
      by rewrite <- app_assoc. }
    replace (Z.of_nat (length pre + S (length ps)))
      with (Z.of_nat (length (pre ++ [p]) + length ps))
      by (rewrite length_app; cbn [length]; lia).
    replace (Z.of_nat (length pre) + 1) with (Z.of_nat (length (pre ++ [p])))
      by (rewrite length_app; cbn [length]; lia).
    cbn [mbind option_bind]. rewrite IH. cbn [mbind option_bind].
    by rewrite <- app_assoc.
Qed.

(** X14. Registering the matrices of a list: after [dw_alloc_flag_out]
    for as many slots as the list has pointers, setting the slots 0, 1,
    ... in turn with [dw_set_flag_out] returns 0 at every call, and the
    slot array then holds the pointers of the list, in their order, with
    no uninitialised slot left.  The other fields are those of the
    registry before. *)
Theorem set_flags_after_alloc ds ps :
  set_flags_from (dw_alloc_flag_out ds (Z.of_nat (length ps))).2 0 ps
  = Some (replicate (length ps) 0,
          Dw (data ds) (rows ds) (cols ds) ps (Z.of_nat (length ps))
             (flag_data_ind ds) (flag_product ds) (l_flag_prod ds)).
Proof.
  pose proof (set_flags_from_prefix (data ds) (rows ds) (cols ds)
                (flag_data_ind ds) (flag_product ds) (l_flag_prod ds) [] ps) as Hset.
  cbn [length app Nat.add] in Hset.
  unfold dw_alloc_flag_out, malloc. cbn [snd]. by rewrite Nat2Z.id.
Qed.

Lemma load_zero_matrix rows cols off :
  0 ≤ off < rows * cols → load (zero_matrix rows cols) off = Some 0.
Proof.
  intros Hoff. unfold load, zero_matrix. rewrite decide_True by lia.
  apply lookup_replicate_2. lia.
Qed.

Lemma dw_set_flag_prod_Some ds fp n fdi :
  ∃ fp' fdi',
    dw_set_flag_prod ds fp n fdi
    = Some (0, Dw (data ds) (rows ds) (cols ds) (flag_data ds) (l_flag ds)
                  fdi' fp' n) ∧
    copy_ints fp n (malloc n None) = Some fp' ∧
    length fp' = Z.to_nat n.
Proof.
  unfold dw_set_flag_prod.
  destruct (copy_ints_Some fp n (malloc n None) (malloc_room n None))
    as (fp' & Hfp & Hlen & _).
  destruct (copy_ints_Some fdi (l_flag ds) (malloc (l_flag ds) None)
              (malloc_room (l_flag ds) None)) as (fdi' & -> & _).
  rewrite Hfp. rewrite length_malloc in Hlen. by exists fp', fdi'.
Qed.


(** X16. A call of [dw_set_flag_prod] replaces both tables of the
    registry: after an earlier call, whatever its arguments were, it
    returns what it returns without that call. *)
Theorem dw_set_flag_prod_replaces ds fp n fdi r ds1 fp' n' fdi' :
  dw_set_flag_prod ds fp n fdi = Some (r, ds1) →
  dw_set_flag_prod ds1 fp' n' fdi' = dw_set_flag_prod ds fp' n' fdi'.
Proof.
  destruct (dw_set_flag_prod_Some ds fp n fdi) as (tp & ti & -> & _).
  intros [= <- <-]. done.
Qed.

(** X17. [dw_even_odd] reads the entries 0 and 1 of the product table
    and never looks at [l_flag_prod]: on a registry whose table
    [dw_set_flag_prod] has set with fewer than two entries, it reads past
    the table and has no result, whatever else the registry holds. *)
Theorem dw_even_odd_needs_two_products ds fp n fdi r ds' channel_start h :
  n < 2 →
  dw_set_flag_prod ds fp n fdi = Some (r, ds') →
  dw_even_odd ds' channel_start h = None.
Proof.
  intros Hn.
  destruct (dw_set_flag_prod_Some ds fp n fdi) as (tp & ti & -> & _ & Hlen).
  intros [= <- <-].
  destruct (dw_even_odd _ channel_start h) as [[r' h']|] eqn:Hcall; [|done].
  apply dw_even_odd_Some in Hcall as (_ & p0 & p1 & _ & _ & _ & _ & Hp1 & _).
  cbn [flag_product] in Hp1. unfold read_int, load in Hp1.
  rewrite decide_True in Hp1 by lia.
  rewrite lookup_ge_None_2 in Hp1; [done|]. rewrite Hlen. lia.
Qed.

(** ** One product *)

Lemma parity_of_column k col :
  k = 0 ∨ k = 1 → 0 ≤ col → (k ≤ col ∧ (col - k) mod 2 = 0) ↔ col mod 2 = k.
Proof. intros [->| ->] Hcol; split; Z.to_euclidean_division_equations; lia. Qed.

(** X18. [dw_even_odd] with one product selected (its table entry is
    above -1) and the other one not (a negative entry): it returns 0 and
    changes the matrix of the selected product alone, where the cells of
    the columns 0, 2, ... (product 0) or 1, 3, ... (product 1) hold 1 and
    every other cell holds what it held.  (The offsets are [int]s:
    [rows * cols <= INT_MAX], [cols < INT_MAX].) *)
Theorem dw_even_odd_one_product ds channel_start h k p q b buf :
  k = 0 ∨ k = 1 →
  rows ds * cols ds ≤ INT_MAX → cols ds < INT_MAX →
  read_int (flag_product ds) k = Some p → p > -1 →
  read_int (flag_product ds) (1 - k) = Some q → q < 0 →
  read_ptr (flag_data ds) p = Ptr b →
  h !! b = Some buf →
  rows ds * cols ds ≤ Z.of_nat (length buf) →
  ∃ m,
    dw_even_odd ds channel_start h = Some (0, <[b := m]> h) ∧
    length m = length buf ∧
    (∀ row col, 0 ≤ row < rows ds → 0 ≤ col < cols ds →
       load m (row * cols ds + col)
       = if decide (col mod 2 = k) then Some 1
         else load buf (row * cols ds + col)) ∧
    (∀ off, rows ds * cols ds ≤ off → load m off = load buf off).
Proof.
  intros Hk Hcells Hwide Hp Hact Hq Hoff Hslot Hbuf Hlen.
  exists (flag_cells buf (parity_offsets ds k)). split_and!.
  - apply dw_even_odd_Some. split; [done|]. unfold product_stores.
    destruct Hk as [->| ->].
    + exists p, q, (parity_offsets ds 0), [],
        (<[b := flag_cells buf (parity_offsets ds 0)]> h).
      rewrite decide_True by done. rewrite decide_False by lia.
      split_and!; [done | done | by apply parity_stores_Some | done | | done].
      apply flag_run; [done | done | by apply parity_stores_inside].
    + exists q, p, [], (parity_offsets ds 1), h.
      rewrite decide_False by lia. rewrite decide_True by done.
      split_and!; [done | done | done | by apply parity_stores_Some | done |].
      apply flag_run; [done | done | by apply parity_stores_inside].
  - apply length_flag_cells.
  - intros row col Hrow Hcol.
    rewrite load_parity_cells by (done || lia).
    pose proof (parity_of_column k col Hk) as Hpar.
    destruct (decide (col mod 2 = k)) as [Hmod|Hmod].
    + rewrite decide_True; [done | apply Hpar; [lia | done]].
    + rewrite decide_False; [done|]. intros Hc. apply Hmod, Hpar; [lia | done].
  - intros off Hout. apply load_parity_cells_outside; [lia | done].
Qed.

(** X20. The label table gets its length from [dw_set_flag_prod] alone:
    the call gives it the [l_flag] cells that the registry counts then,
    and a later [dw_alloc_flag_out] for another number of slots changes
    [l_flag] and the slot array but leaves the label table with the
    cells it had, so that the table no longer has [l_flag] cells until
    [dw_set_flag_prod] is called again. *)
Theorem label_table_length ds fp n fdi r ds1 m :
  dw_set_flag_prod ds fp n fdi = Some (r, ds1) →
  length (flag_data_ind ds1) = Z.to_nat (l_flag ds1) ∧
  l_flag (dw_alloc_flag_out ds1 m).2 = m ∧
  length (flag_data (dw_alloc_flag_out ds1 m).2) = Z.to_nat m ∧
  length (flag_data_ind (dw_alloc_flag_out ds1 m).2) = Z.to_nat (l_flag ds1).
Proof.
  unfold dw_set_flag_prod.
  destruct (copy_ints_Some fp n (malloc n None) (malloc_room n None))
    as (fp' & -> & _).
  destruct (copy_ints_Some fdi (l_flag ds) (malloc (l_flag ds) None)
              (malloc_room (l_flag ds) None)) as (fdi' & -> & Hlen & _).
  rewrite length_malloc in Hlen. intros [= <- <-].
  cbn [dw_alloc_flag_out snd flag_data_ind l_flag flag_data].
  split_and!; [done | done | apply length_malloc | done].
Qed.

(** ** Counting the flags of a channel *)

Lemma count_flagged_cons v buf :
  count_flagged (v :: buf) = (if decide (v = 1) then 1 else 0) + count_flagged buf.
Proof. unfold count_flagged. rewrite filter_cons. case_decide; cbn [length]; lia. Qed.

Lemma count_flagged_store buf off v :
  load buf off = Some v → v ≠ 1 →
  count_flagged (store buf off 1) = count_flagged buf + 1.
Proof.
  unfold load, store. case_decide as Hoff; [|done]. intros Hv Hne.
  pose proof (take_drop_middle buf (Z.to_nat off) v Hv) as Hsplit.
  transitivity (count_flagged (take (Z.to_nat off) buf ++ v :: drop (S (Z.to_nat off)) buf) + 1);
    [|by rewrite Hsplit].
  rewrite insert_take_drop by (by eapply lookup_lt_Some).
  rewrite !count_flagged_app, !count_flagged_cons.
  rewrite decide_True by done. rewrite decide_False by done. lia.
Qed.

(** Every store to a cell of its own that does not hold 1 adds a flag. *)
Lemma count_flagged_new_cells buf offs :
  NoDup offs →
  (∀ off, off ∈ offs → ∃ v, load buf off = Some v ∧ v ≠ 1) →
  count_flagged (flag_cells buf offs) = count_flagged buf + Z.of_nat (length offs).
Proof.
  intros Hdistinct. revert buf.
  induction Hdistinct as [|off offs Hnin _ IH]; intros buf Hcells.
  - unfold flag_cells. cbn [foldl length]. lia.
  - change (flag_cells buf (off :: offs)) with (flag_cells (store buf off 1) offs).
    rewrite IH.
    + destruct (Hcells off) as (v & Hv & Hne); [left|].
      rewrite (count_flagged_store buf off v) by done. cbn [length]. lia.
    + intros off' Hin. destruct (Hcells off') as (v & Hv & Hne); [by right|].
      exists v. split; [|done]. rewrite load_store_ne; [done|]. by intros ->.
Qed.

Lemma NoDup_channel_offsets ds channel :
  0 ≤ channel < cols ds → NoDup (channel_offsets ds channel).
Proof.
  intros Hchannel. unfold channel_offsets.
  apply NoDup_fmap_2_strong; [|apply NoDup_seqZ].
  intros row row' _ _ Heq. nia.
Qed.

(** X21. [dw_single_channel] on a channel none of whose cells holds 1
    adds exactly [rows] flags to the matrix of slot 0: the number of
    cells that hold 1 grows by [rows].  On a zeroed matrix it is [rows]
    afterwards.  (The matrix has at least [rows * cols] cells, and
    [rows * cols <= INT_MAX].) *)
Theorem dw_single_channel_flag_count ds channel h b buf :
  read_ptr (flag_data ds) 0 = Ptr b →
  h !! b = Some buf →
  0 ≤ rows ds → rows ds * cols ds ≤ INT_MAX →
  0 ≤ channel < cols ds →
  rows ds * cols ds ≤ Z.of_nat (length buf) →
  (∀ row, 0 ≤ row < rows ds → load buf (row * cols ds + channel) ≠ Some 1) →
  ∃ buf',
    dw_single_channel ds channel h = Some (0, <[b := buf']> h) ∧
    count_flagged buf' = count_flagged buf + rows ds.
Proof.
  intros Hslot Hb Hrows Hcells Hchannel Hlen Hclear.
  exists (flag_cells buf (channel_offsets ds channel)). split.
  - apply dw_single_channel_Some. split; [done|].
    exists (channel_offsets ds channel).
    split; [by apply channel_stores_Some|].
    apply flag_run; [done | done | by apply channel_stores_inside].
  - rewrite count_flagged_new_cells.
    + unfold channel_offsets. rewrite length_fmap, length_seqZ. lia.
    + by apply NoDup_channel_offsets.
    + intros off (row & Hrow & ->)%elem_of_channel_offsets.
      specialize (Hclear row Hrow). unfold load in *.
      rewrite decide_True in * by nia.
      destruct (buf !! Z.to_nat (row * cols ds + channel)) as [v|] eqn:Hv.
      * exists v. split; [done|]. congruence.
      * apply lookup_ge_None in Hv. nia.
Qed.

(** ** The further properties on the small registry *)


Lemma dw_even_odd_frame_witness :
  dw_even_odd (with_flag_product demo_struct [Some (-5); Some 1] 2) 0%Q demo_heap
  = Some (0, <[2%positive := [0; 1; 0; 0; 1; 0]]> demo_heap) ∧
  (<[2%positive := [0; 1; 0; 0; 1; 0]]> demo_heap) !! 1%positive
  = demo_heap !! 1%positive.
Proof.
  assert (dw_even_odd (with_flag_product demo_struct [Some (-5); Some 1] 2)
            0%Q demo_heap
          = Some (0, <[2%positive := [0; 1; 0; 0; 1; 0]]> demo_heap)) as Hcall
    by (vm_compute; reflexivity).
  split; [exact Hcall|].
  apply (dw_even_odd_frame (with_flag_product demo_struct [Some (-5); Some 1] 2)
           0%Q demo_heap 0 (<[2%positive := [0; 1; 0; 0; 1; 0]]> demo_heap)
           (-5) 1 1%positive).
  - reflexivity.
  - reflexivity.
  - exact Hcall.
  - left. lia.
  - right. discriminate.
Defined.

Lemma dw_even_odd_any_contents_witness :
  ∃ m0 m1,
    dw_even_odd demo_struct 0%Q demo_used_heap
    = Some (0, <[2%positive := m1]> (<[1%positive := m0]> demo_used_heap)) ∧
    load m0 (1 * 3 + 2) = Some 1 ∧ load m0 (1 * 3 + 1) = Some 5 ∧
    load m1 (1 * 3 + 1) = Some 1 ∧ load m1 (1 * 3 + 2) = Some 7.
Proof.
  destruct (dw_even_odd_any_contents demo_struct 0%Q demo_used_heap
              0 1 1%positive 2%positive
              [5; 5; 5; 5; 5; 5] [7; 7; 7; 7; 7; 7])
    as (m0 & m1 & Hcall & _ & _ & Hcells & _).
  - cbn [rows cols demo_struct]. unfold INT_MAX. lia.
  - cbn [cols demo_struct]. unfold INT_MAX. lia.
  - reflexivity.
  - lia.
  - reflexivity.
  - lia.
  - reflexivity.
  - reflexivity.
  - discriminate.
  - reflexivity.
  - reflexivity.
  - cbn [rows cols demo_struct length]. lia.
  - cbn [rows cols demo_struct length]. lia.
  - exists m0, m1.
    assert (0 ≤ 1 < rows demo_struct) as Hrow by (cbn [rows demo_struct]; lia).
    assert (0 ≤ 1 < cols demo_struct) as Hone by (cbn [cols demo_struct]; lia).
    assert (0 ≤ 2 < cols demo_struct) as Htwo by (cbn [cols demo_struct]; lia).
    split_and!.
    + exact Hcall.
    + exact (proj1 (Hcells 1 2 Hrow Htwo)).
    + exact (proj1 (Hcells 1 1 Hrow Hone)).
    + exact (proj2 (Hcells 1 1 Hrow Hone)).
    + exact (proj2 (Hcells 1 2 Hrow Htwo)).
Defined.

Lemma dw_even_odd_shared_destination_witness :
  dw_even_odd demo_shared 0%Q demo_heap
  = Some (0, <[1%positive := replicate (length (zero_matrix 2 3)) 1]> demo_heap).
Proof.
  apply (dw_even_odd_shared_destination demo_shared 0%Q demo_heap
           0 1 1%positive (zero_matrix 2 3)).
  - cbn [cols demo_shared]. lia.
  - cbn [rows cols demo_shared]. unfold INT_MAX. lia.
  - cbn [cols demo_shared]. unfold INT_MAX. lia.
  - reflexivity.
  - lia.
  - reflexivity.
  - lia.
  - reflexivity.
  - reflexivity.
  - reflexivity.
  - reflexivity.
Defined.

Lemma detectors_commute_witness :
  ∃ h1 h2 h1',
    dw_even_odd demo_struct 0%Q demo_heap = Some (0, h1) ∧
    dw_single_channel demo_struct 1 h1 = Some (0, h2) ∧
    dw_single_channel demo_struct 1 demo_heap = Some (0, h1') ∧
    dw_even_odd demo_struct 0%Q h1' = Some (0, h2).
Proof.
  pose proof (detectors_commute demo_struct 0%Q 1 1 demo_heap 0
                (<[1%positive := [1; 0; 1; 1; 0; 1]]>
                   (<[2%positive := [0; 1; 0; 0; 1; 0]]> ∅)) 0
                (<[1%positive := [1; 1; 1; 1; 1; 1]]>
                   (<[2%positive := [0; 1; 0; 0; 1; 0]]> ∅))) as [Hswap _].
  assert (dw_single_channel demo_struct 1
            (<[1%positive := [1; 0; 1; 1; 0; 1]]>
               (<[2%positive := [0; 1; 0; 0; 1; 0]]> ∅))
          = Some (0, <[1%positive := [1; 1; 1; 1; 1; 1]]>
                       (<[2%positive := [0; 1; 0; 0; 1; 0]]> ∅))) as Hsecond
    by (vm_compute; reflexivity).
  destruct (Hswap dw_even_odd_demo Hsecond) as (h1' & Hfirst' & Hsecond').
  eexists _, _, h1'.
  split_and!; [exact dw_even_odd_demo | exact Hsecond | exact Hfirst' | exact Hsecond'].
Defined.

Lemma parity_pass_any_order_witness :
  NoDup [0; 3; 2; 5] ∧
  iterM (write_flag demo_struct 0) [5; 2; 3; 0] demo_heap
  = parity_pass demo_struct 0 0 demo_heap.
Proof.
  destruct (parity_pass_any_order demo_struct 0 0 0 [0; 3; 2; 5] demo_heap)
    as [Hdistinct Horder].
  - lia.
  - reflexivity.
  - vm_compute. reflexivity.
  - split; [exact Hdistinct|].
    apply Horder. exact (reverse_Permutation [0; 3; 2; 5]).
Defined.


Lemma detectors_need_set_slots_witness :
  dw_single_channel demo_unset 1 demo_heap = None ∧
  dw_even_odd demo_unset 0%Q demo_heap = None.
Proof.
  split.
  - apply (detectors_need_set_slots demo_unset 0%Q 1 demo_heap).
    + cbn. lia.
    + intros b Hb. discriminate Hb.
  - apply (proj2 (detectors_need_set_slots demo_unset 0%Q 1 demo_heap) 0 0).
    + by left.
    + cbn. lia.
    + cbn. lia.
    + reflexivity.
    + lia.
    + intros b Hb. discriminate Hb.
Defined.

Lemma bootstrap_resample_edge_lengths_witness :
  bootstrap_resample Z lcg_rand [] 0 [7%Q] 0 42 = Some (0, ([7%Q], 42)) ∧
  bootstrap_resample Z lcg_rand [] 0 [7%Q] 1 42 = None.
Proof.
  split.
  - apply (bootstrap_resample_edge_lengths Z lcg_rand [] 0 [7%Q] 0 42). lia.
  - apply (bootstrap_resample_edge_lengths Z lcg_rand [] 0 [7%Q] 1 42);
      [lia | reflexivity].
Defined.

Lemma bootstrap_resample_draws_witness :
  ∃ x_out',
    bootstrap_resample Z lcg_rand [] (-3) [0%Q; 0%Q; 7%Q] 2 42
    = Some (0, (x_out', rand_after Z lcg_rand 2 42)) ∧
    load x_out' 1
    = Some (double_of_int (Z.rem (lcg_rand (rand_after Z lcg_rand 1 42)).1 (-3))) ∧
    0 ≤ Z.rem (lcg_rand (rand_after Z lcg_rand 1 42)).1 (-3) < 3.
Proof.
  destruct (bootstrap_resample_draws Z lcg_rand lcg_rand_nonneg
              [] (-3) [0%Q; 0%Q; 7%Q] 2 42) as (x_out' & Hcall & Hcells).
  - lia.
  - cbn [length]. lia.
  - exists x_out'. split; [exact Hcall|].
    apply (Hcells 1). lia.
Defined.


Lemma dw_set_flag_out_order_witness :
  ∃ ds2,
    (ds1 ← after_set_flag_out demo_unset (Ptr 3%positive) 0;
     after_set_flag_out ds1 (Ptr 4%positive) 1) = Some ds2 ∧
    (ds1 ← after_set_flag_out demo_unset (Ptr 4%positive) 1;
     after_set_flag_out ds1 (Ptr 3%positive) 0) = Some ds2.
Proof.
  apply (dw_set_flag_out_order demo_unset (Ptr 3%positive) (Ptr 4%positive) 0 1);
    [reflexivity | lia | lia | lia].
Defined.


Lemma dw_set_flag_prod_replaces_witness :
  ∃ ds1,
    dw_set_flag_prod demo_struct [Some 7] 1 [Some 3; Some 4] = Some (0, ds1) ∧
    dw_set_flag_prod ds1 [Some 0; Some 1] 2 [Some 5; Some 6]
    = dw_set_flag_prod demo_struct [Some 0; Some 1] 2 [Some 5; Some 6].
Proof.
  eexists. split; [reflexivity|].
  apply (dw_set_flag_prod_replaces demo_struct [Some 7] 1 [Some 3; Some 4] 0).
  reflexivity.
Defined.

Lemma dw_even_odd_needs_two_products_witness :
  ∃ ds',
    dw_set_flag_prod demo_struct [Some 0] 1 [Some 10; Some 11] = Some (0, ds') ∧
    dw_even_odd ds' 0%Q demo_heap = None.
Proof.
  eexists. split; [reflexivity|].
  apply (dw_even_odd_needs_two_products demo_struct [Some 0] 1 [Some 10; Some 11] 0);
    [lia | reflexivity].
Defined.

Lemma dw_even_odd_one_product_witness :
  ∃ m,
    dw_even_odd (with_flag_product demo_struct [Some (-1); Some 0] 2) 0%Q demo_used_heap
    = Some (0, <[1%positive := m]> demo_used_heap) ∧
    load m (1 * 3 + 1) = Some 1 ∧ load m (1 * 3 + 2) = Some 5.
Proof.
  destruct (dw_even_odd_one_product
              (with_flag_product demo_struct [Some (-1); Some 0] 2)
              0%Q demo_used_heap 1 0 (-1) 1%positive [5; 5; 5; 5; 5; 5])
    as (m & Hcall & _ & Hcells & _).
  - by right.
  - cbn. unfold INT_MAX. lia.
  - cbn. unfold INT_MAX. lia.
  - reflexivity.
  - lia.
  - reflexivity.
  - lia.
  - reflexivity.
  - reflexivity.
  - cbn. lia.
  - exists m.
    assert (0 ≤ 1 < rows (with_flag_product demo_struct [Some (-1); Some 0] 2))
      as Hrow by (cbn; lia).
    assert (0 ≤ 1 < cols (with_flag_product demo_struct [Some (-1); Some 0] 2))
      as Hone by (cbn; lia).
    assert (0 ≤ 2 < cols (with_flag_product demo_struct [Some (-1); Some 0] 2))
      as Htwo by (cbn; lia).
    split_and!; [exact Hcall | exact (Hcells 1 1 Hrow Hone) | exact (Hcells 1 2 Hrow Htwo)].
Defined.

Lemma label_table_length_witness :
  ∃ ds1,
    dw_set_flag_prod demo_struct [Some 0; Some 1] 2 [Some 10; Some 11]
    = Some (0, ds1) ∧
    l_flag (dw_alloc_flag_out ds1 5).2 = 5 ∧
    length (flag_data_ind (dw_alloc_flag_out ds1 5).2) = Z.to_nat (l_flag ds1).
Proof.
  exists demo_struct.
  destruct (label_table_length demo_struct [Some 0; Some 1] 2 [Some 10; Some 11]
              0 demo_struct 5) as (_ & Hcount & _ & Hlabels); [reflexivity|].
  split_and!; [reflexivity | exact Hcount | exact Hlabels].
Defined.

Lemma bootstrap_resample_twice_witness :
  ∃ x1 x2,
    bootstrap_resample Z lcg_rand [] 3 [0%Q; 0%Q; 7%Q] 2 42
    = Some (0, (x1, rand_after Z lcg_rand 2 42)) ∧
    bootstrap_resample Z lcg_rand [] 3 x1 2 (rand_after Z lcg_rand 2 42)
    = Some (0, (x2, rand_after Z lcg_rand 4 42)) ∧
    load x2 1
    = Some (double_of_int (Z.rem (lcg_rand (rand_after Z lcg_rand 3 42)).1 3)).
Proof.
  destruct (bootstrap_resample_twice Z lcg_rand [] 3 [0%Q; 0%Q; 7%Q] 2 42)
    as (x1 & x2 & Hfirst & Hsecond & Hcells).
  - lia.
  - cbn [length]. lia.
  - exists x1, x2. split_and!; [exact Hfirst | exact Hsecond |].
    apply (Hcells 1). lia.
Defined.

Lemma dw_single_channel_flag_count_witness :
  ∃ buf',
    dw_single_channel demo_struct 1 demo_heap
    = Some (0, <[1%positive := buf']> demo_heap) ∧
    count_flagged buf' = 0 + 2.
Proof.
  apply (dw_single_channel_flag_count demo_struct 1 demo_heap
           1%positive (zero_matrix 2 3)).
  - reflexivity.
  - reflexivity.
  - cbn [rows demo_struct]. lia.
  - cbn [rows cols demo_struct]. unfold INT_MAX. lia.
  - cbn [cols demo_struct]. lia.
  - change (length (zero_matrix 2 3)) with 6%nat. cbn [rows cols demo_struct]. lia.
  - intros row Hrow. cbn [rows cols demo_struct] in *.
    rewrite load_zero_matrix by lia. discriminate.
Defined.
